(** * PINetTensorrt: lane post-processing of [PINetTensorrt.cpp]

    A shallow embedding of the post-processing part of the sample,
    [chwDataToMat], [PINetTensorrt::generate_result] and
    [PINetTensorrt::verifyOutput], and of [PINetTensorrt::processInput].
    The loop body of [generate_result] ends once the point of a cell has
    passed the bounds test; the lines that follow it in the source
    (321-353) are a comment and no part of the embedding.

    Conventions of the embedding.
    - A [float] is a rational.  The quotient [processInput] stores is
      rounded to binary32.  Elsewhere the values are those of the host
      buffers, compared as rationals, and the arithmetic of the cell loop
      acts on small integers, where binary32 is exact.  Non-finite values
      are outside the model.
    - The three host buffers are reached through [float*] pointers that
      carry no length: a buffer is a total map from element index to value,
      and an index past the tensor reads whatever that memory holds.
    - A [cv::Mat] is its header (rows, cols, element size) and the bytes
      reached from its data pointer.  The accessors [at<T>] and [ptr<T>]
      are the address computations of the OpenCV headers, whose checks are
      debug-only assertions: [at<T>(i,j)] addresses the [j]-th [T] after
      byte [step * i] of the data, and [ptr<T>(i,j)] points at byte
      [step * i + elemSize * j] of the data, seen as an array of [T].
    - Bytes that the program reads without having written them (storage
      handed out uninitialised, bytes past the end of a buffer) are supplied
      by a [Garbage] argument, over which the statements quantify. *)

From Stdlib Require Import ZArith QArith Qabs Qround List Bool Lia Lqa.
Import ListNotations.

Local Open Scope Z_scope.

(** ** Numbers *)

Definition output_base_index : Z := 3.
(** [0.81f], [0.22f] and [0.000001f] are the binary32 values nearest to the
    decimal literals. *)
Definition threshold_point : Q := 13589545 # 16777216.
Definition resize_ratio : Z := 8.
Definition degenerate_eps : Q := 8796093 # 8796093022208.

(** [a > b] and [a < b] on floats. *)
Definition Qgtb (a b : Q) : bool :=
  Qnum b * Z.pos (Qden a) <? Qnum a * Z.pos (Qden b).
Definition Qltb (a b : Q) : bool := Qgtb b a.

(** The cast [(int)x]: truncation toward zero. *)
Definition Qtrunc (q : Q) : Z := Z.quot (Qnum q) (Z.pos (Qden q)).

(** Conversion of a float to [uchar]: truncation, and the low byte of the
    result when the value does not fit (undefined in C++; this is what the
    usual targets compute). *)
Definition to_uchar (q : Q) : Z := Qtrunc q mod 256.

(** The index sequence of [for (int i = 0; i < n; ++i)]. *)
Definition range (n : Z) : list Z := map Z.of_nat (seq 0 (Z.to_nat n)).

(** ** Host buffers and the small state monad the code runs in *)

Inductive buf := Confidance | Offsets | Instance.

Record Host := mkHost {
  confidance_mem : Z -> Q;
  offsets_mem : Z -> Q;
  instance_mem : Z -> Q
}.

(** A [float*]: the buffer it points into and an element index. *)
Record ptr := mkPtr { base : buf; idx : Z }.

Definition ptr_add (p : ptr) (n : Z) : ptr := mkPtr (base p) (idx p + n).

Definition peek (h : Host) (p : ptr) : Q :=
  match base p with
  | Confidance => confidance_mem h (idx p)
  | Offsets => offsets_mem h (idx p)
  | Instance => instance_mem h (idx p)
  end.

Definition upd {A} (f : Z -> A) (k : Z) (v : A) : Z -> A :=
  fun a => if a =? k then v else f a.

Definition poke (h : Host) (p : ptr) (v : Q) : Host :=
  match base p with
  | Confidance => mkHost (upd (confidance_mem h) (idx p) v) (offsets_mem h) (instance_mem h)
  | Offsets => mkHost (confidance_mem h) (upd (offsets_mem h) (idx p) v) (instance_mem h)
  | Instance => mkHost (confidance_mem h) (offsets_mem h) (upd (instance_mem h) (idx p) v)
  end.

(** Replace the contents of the offset buffer. *)
Definition with_offsets (h : Host) (o : Z -> Q) : Host :=
  mkHost (confidance_mem h) o (instance_mem h).

Definition M (A : Type) : Type := Host -> A * Host.

Definition ret {A} (a : A) : M A := fun h => (a, h).
Definition bind {A B} (m : M A) (k : A -> M B) : M B :=
  fun h => let (a, h') := m h in k a h'.
(** [*p] as an rvalue and [*p = v]. *)
Definition load (p : ptr) : M Q := fun h => (peek h p, h).
Definition store (p : ptr) (v : Q) : M unit := fun h => (tt, poke h p v).

Notation "x <- m ;; k" := (bind m (fun x => k))
  (at level 61, m at next level, right associativity).
Notation "m ;;; k" := (bind m (fun _ => k))
  (at level 61, right associativity).

(** A loop over [l] that threads the loop-carried variables [s]. *)
Fixpoint for_each {A S} (l : list A) (body : A -> S -> M S) (s : S) : M S :=
  match l with
  | [] => ret s
  | a :: l' => s' <- body a s ;; for_each l' body s'
  end.

(** ** cv::Mat *)

Record Mat := mkMat {
  rows : Z;
  cols : Z;
  elemSize : Z;
  data : Z -> Z
}.

Definition step (m : Mat) : Z := cols m * elemSize m.

Definition byte_at (m : Mat) (o : Z) : Z := data m o mod 256.
Definition set_byte (m : Mat) (o v : Z) : Mat :=
  mkMat (rows m) (cols m) (elemSize m) (upd (data m) o (v mod 256)).

(** [cv::Mat(rows, cols, type)]: storage is not initialised. *)
Definition Mat_new (r c esz : Z) (raw : Z -> Z) : Mat := mkMat r c esz raw.

(** [cv::Mat::zeros(rows, cols, type)]. *)
Definition Mat_zeros (r c esz : Z) (raw : Z -> Z) : Mat :=
  mkMat r c esz (fun a => if (0 <=? a) && (a <? r * c * esz) then 0 else raw a).

(** A little-endian 32-bit [int] at a byte offset. *)
Definition int_of_bytes (b0 b1 b2 b3 : Z) : Z :=
  let u := b0 + 256 * b1 + 65536 * b2 + 16777216 * b3 in
  if u <? 2147483648 then u else u - 4294967296.

Definition read_int (m : Mat) (o : Z) : Z :=
  int_of_bytes (byte_at m o) (byte_at m (o + 1)) (byte_at m (o + 2)) (byte_at m (o + 3)).

Definition write_int (m : Mat) (o v : Z) : Mat :=
  set_byte (set_byte (set_byte (set_byte m o v) (o + 1) (v / 256))
                     (o + 2) (v / 65536)) (o + 3) (v / 16777216).

(** [m.at<int>(i, j)] read and written. *)
Definition at_int_offset (m : Mat) (i j : Z) : Z := step m * i + 4 * j.
Definition at_int (m : Mat) (i j : Z) : Z := read_int m (at_int_offset m i j).
Definition set_at_int (m : Mat) (i j v : Z) : Mat := write_int m (at_int_offset m i j) v.

(** [m.at<cv::Vec3b>(i, j)[k]]. *)
Definition at_Vec3b (m : Mat) (i j k : Z) : Z := byte_at m (step m * i + 3 * j + k).

(** [m.ptr<cv::Vec3b>(i0, i1)[c] = v]: the [uchar] [v] becomes the
    [Vec3b] [(v, 0, 0)], stored at the [c]-th [Vec3b] after the address of
    element [(i0, i1)]. *)
Definition set_ptr_Vec3b (m : Mat) (i0 i1 c v : Z) : Mat :=
  let o := step m * i0 + elemSize m * i1 + 3 * c in
  set_byte (set_byte (set_byte m o v) (o + 1) 0) (o + 2) 0.

(** [cv::merge(mv, n, dst)] for single-channel 32-bit planes: the planes
    are interleaved element by element. *)
Definition merge (mv : list Mat) (n : Z) (raw : Z -> Z) : Mat :=
  let r := rows (nth 0 mv (Mat_new 0 0 4 raw)) in
  let c := cols (nth 0 mv (Mat_new 0 0 4 raw)) in
  mkMat r c (4 * n)
    (fun a =>
       if (0 <=? a) && (a <? r * c * (4 * n)) then
         let e := a / (4 * n) in
         let k := (a mod (4 * n)) / 4 in
         let b := a mod 4 in
         byte_at (nth (Z.to_nat k) mv (Mat_new 0 0 4 raw)) (4 * e + b)
       else raw a).

(** ** chwDataToMat *)

(** The two inner loops: plane [c] is filled from [channel_data], which
    advances by one element per cell. *)
Definition plane_loop (c width height : Z) (mask : Mat) (channel_data : ptr)
    (channel : Mat) : M (ptr * Mat) :=
  for_each (range height) (fun h st =>
    for_each (range width) (fun w '(channel_data, channel) =>
      v <- load channel_data ;;
      ret (ptr_add channel_data 1,
           set_ptr_Vec3b channel w h c
             (to_uchar (v * inject_Z (at_int mask w h)))))
    st)
  (channel_data, channel).

(** [raw c] is the initial content of the storage of plane [c], and
    [raw numberOfChannel] what lies past the end of the merged matrix. *)
Definition chwDataToMat (raw : Z -> Z -> Z)
    (numberOfChannel width height : Z) (data : ptr) (mask : Mat) : M Mat :=
  let data_size := width * height * 4 in
  channels <-
    for_each (range numberOfChannel) (fun c channels =>
      let channel_data := ptr_add data (data_size * c) in
      let channel := Mat_new width height 4 (raw c) in
      st <- plane_loop c width height mask channel_data channel ;;
      ret (channels ++ [snd st]))
    [] ;;
  ret (merge channels numberOfChannel (raw numberOfChannel)).

(** ** generate_result *)

Record Dims := mkDims { d0 : Z; d1 : Z; d2 : Z }.

Record Garbage := mkGarbage {
  junk_mask : Z -> Z;
  junk_offset : Z -> Z -> Z;
  junk_feature : Z -> Z -> Z
}.

(** An iteration of the cell loop that reaches the end of the loop body:
    the cell and the point computed for it. *)
Record Keypoint := mkKeypoint {
  cell_i : Z;
  cell_j : Z;
  point_x : Z;
  point_y : Z
}.

(** What a call leaves behind: the mask as it is logged, row by row, and
    the iterations of the cell loop that were not abandoned by a
    [continue]. *)
Record Result := mkResult {
  mask_log : list (list Z);
  keypoints : list Keypoint
}.

(** The first loop: the mask, walked with [confidance_ptr]. *)
Definition mask_loop (dim : Dims) (thresh : Q) (confidance : ptr) (mask : Mat)
  : M (ptr * Mat) :=
  for_each (range (d2 dim)) (fun i st =>
    for_each (range (d1 dim)) (fun j '(confidance_ptr, mask) =>
      v <- load confidance_ptr ;;
      ret (ptr_add confidance_ptr 1,
           if Qgtb v thresh then set_at_int mask i j 1 else mask))
    st)
  (confidance, mask).

(** The values read for cell [(i, j)] and the point computed from them. *)
Definition feature0 (feature : Mat) (i j : Z) : Q := inject_Z (at_Vec3b feature i j 0).
Definition feature1 (feature : Mat) (i j : Z) : Q := inject_Z (at_Vec3b feature i j 1).

Definition cell_point_x (feature : Mat) (i j : Z) : Z :=
  Qtrunc ((feature0 feature i j + inject_Z j) * inject_Z resize_ratio).
Definition cell_point_y (feature : Mat) (i j : Z) : Z :=
  Qtrunc ((feature1 feature i j + inject_Z i) * inject_Z resize_ratio).

(** The body of the cell loop; [None] is [continue]. *)
Definition cell_body (dim : Dims) (feature : Mat) (i j : Z) : option Keypoint :=
  if Qltb (Qabs (feature0 feature i j) + Qabs (feature1 feature i j)) degenerate_eps
  then None
  else
    let point_x := cell_point_x feature i j in
    let point_y := cell_point_y feature i j in
    if (point_x <? 0) || (point_x >=? d1 dim) || (point_y <? 0) || (point_y >=? d2 dim)
    then None
    else Some (mkKeypoint i j point_x point_y).

Definition option_list {A} (o : option A) : list A :=
  match o with Some a => [a] | None => [] end.

Definition cell_loop (dim : Dims) (feature : Mat) : list Keypoint :=
  flat_map (fun i => flat_map (fun j => option_list (cell_body dim feature i j))
                              (range (d1 dim)))
           (range (d2 dim)).

Definition generate_result (g : Garbage) (mOutputDims : Z -> Dims)
    (confidance offsets instance : ptr) (thresh : Q) : M Result :=
  let dim := mOutputDims output_base_index in
  let offset_dim := mOutputDims (output_base_index + 1) in
  let instance_dim := mOutputDims (output_base_index + 2) in
  st <- mask_loop dim thresh confidance
          (Mat_zeros (d1 dim) (d2 dim) 1 (junk_mask g)) ;;
  let mask := snd st in
  let logged :=
    map (fun i => map (fun j => at_int mask i j) (range (d1 dim))) (range (d2 dim)) in
  offset <- chwDataToMat (junk_offset g)
              (d0 offset_dim) (d1 offset_dim) (d2 offset_dim) offsets mask ;;
  feature <- chwDataToMat (junk_feature g)
              (d0 instance_dim) (d1 instance_dim) (d2 instance_dim) instance mask ;;
  ret (mkResult logged (cell_loop dim feature)).

(** ** verifyOutput *)

Inductive outcome (A : Type) : Type :=
| Returned (a : A)
| AssertionFailed.
Arguments Returned {A} a.
Arguments AssertionFailed {A}.

Record Verified := mkVerified {
  status : bool;
  confidance_log : list Q;
  result : Result
}.

Definition verifyOutput (g : Garbage) (mOutputDims : Z -> Dims) : M (outcome Verified) :=
  let confidance := mkPtr Confidance 0 in
  let offset := mkPtr Offsets 0 in
  let instance := mkPtr Instance 0 in
  let confidanceDims := mOutputDims (output_base_index + 0) in
  let offsetDims := mOutputDims (output_base_index + 1) in
  let instanceDims := mOutputDims (output_base_index + 2) in
  if negb (d0 confidanceDims =? 1) then ret AssertionFailed
  else if negb (d0 offsetDims =? 2) then ret AssertionFailed
  else if negb (d0 instanceDims =? 4) then ret AssertionFailed
  else
    printed <-
      for_each (range (d2 confidanceDims)) (fun i acc =>
        for_each (range (d1 confidanceDims)) (fun j acc =>
          v <- load (ptr_add confidance i) ;;
          ret (acc ++ [v]))
        acc)
      [] ;;
    r <- generate_result g mOutputDims confidance offset instance threshold_point ;;
    ret (Returned (mkVerified true printed r)).

(** The mask and the feature matrix a call of [generate_result] builds. *)
Definition mask_of (g : Garbage) (dim : Dims) (confidance : ptr) (thresh : Q)
    (h : Host) : Mat :=
  snd (fst (mask_loop dim thresh confidance
              (Mat_zeros (d1 dim) (d2 dim) 1 (junk_mask g)) h)).

Definition feature_of (g : Garbage) (mOutputDims : Z -> Dims)
    (confidance instance : ptr) (thresh : Q) (h : Host) : Mat :=
  let dim := mOutputDims output_base_index in
  let instance_dim := mOutputDims (output_base_index + 2) in
  fst (chwDataToMat (junk_feature g)
         (d0 instance_dim) (d1 instance_dim) (d2 instance_dim) instance
         (mask_of g dim confidance thresh h) h).

(** The code calls [d[1]] the width and [d[2]] the height ([processInput],
    and the arguments [generate_result] gives to [chwDataToMat]); the cell
    loop runs its row index [i] below [d[2]] and its column index [j] below
    [d[1]]. *)
Definition W (dim : Dims) : Z := d1 dim.
Definition H (dim : Dims) : Z := d2 dim.

(** *** The words of the mask

    For the recorded dimensions the mask has rows of 32 bytes, so the
    [int] of cell [(i, j)] is the word number [8 * i + j] of its storage. *)

(** The cells the mask loop has gone through when it is at cell [(i, j)]. *)
Definition gone_through (i j i' j' : Z) : Prop :=
  0 <= i' /\ 0 <= j' < 64 /\ (i' < i \/ (i' = i /\ j' < j)).

(** Cell [(i', j')] is above the threshold. *)
Definition above (h : Host) (thresh : Q) (i' j' : Z) : Prop :=
  (thresh < peek h (mkPtr Confidance (i' * 64 + j')))%Q.

(** Every word of the mask is [1] if some cell among [cells] that is above
    the threshold is stored in it, and [0] otherwise. *)
Definition words_marked (h : Host) (thresh : Q) (cells : Z -> Z -> Prop) (m : Mat) : Prop :=
  step m = 32 /\
  forall q, 0 <= q < 512 ->
    (read_int m (4 * q) = 1 /\
     exists i' j', cells i' j' /\ 8 * i' + j' = q /\ above h thresh i' j') \/
    (read_int m (4 * q) = 0 /\
     ~ exists i' j', cells i' j' /\ 8 * i' + j' = q /\ above h thresh i' j').

(** ** Predicates on computations *)

(** The computation leaves the host buffers as it found them. *)
Definition frame {A} (m : M A) : Prop := forall h, snd (m h) = h.

(** Two host states that differ at most in the offset buffer. *)
Definition off_equiv (h h' : Host) : Prop :=
  confidance_mem h = confidance_mem h' /\ instance_mem h = instance_mem h'.

(** The value computed does not depend on the offset buffer. *)
Definition off_blind {A} (m : M A) : Prop :=
  forall h h', off_equiv h h' -> fst (m h) = fst (m h').

(** A loop over cells that reads through a pointer it advances: the
    pointer stays in the buffer it started in. *)
Definition away_from_offsets (st : ptr * Mat) : Prop := base (fst st) <> Offsets.

(** ** Inputs used in examples *)

(** The dimensions the source records for the three outputs it consumes:
    [1 64 32], [2 64 32], [4 64 32]. *)
Definition pinet_dims (k : Z) : Dims :=
  if k =? 3 then mkDims 1 64 32
  else if k =? 4 then mkDims 2 64 32
  else mkDims 4 64 32.

Definition confidance0 : ptr := mkPtr Confidance 0.
Definition offsets0 : ptr := mkPtr Offsets 0.
Definition instance0 : ptr := mkPtr Instance 0.

Definition zero_garbage : Garbage :=
  mkGarbage (fun _ => 0) (fun _ _ => 0) (fun _ _ => 0).

Definition zero_host : Host := mkHost (fun _ => 0%Q) (fun _ => 0%Q) (fun _ => 0%Q).

(** Only the confidence of cell [(0, 8)] exceeds the threshold. *)
Definition host_cell_0_8 : Host :=
  mkHost (fun k => if k =? 8 then (9 # 10)%Q else 0%Q) (fun _ => 0%Q) (fun _ => 0%Q).

(** The confidence of cell [(0, 0)] is exactly the threshold. *)
Definition host_at_threshold : Host :=
  mkHost (fun k => if k =? 0 then threshold_point else 0%Q) (fun _ => 0%Q) (fun _ => 0%Q).

(** Cell [(0, 0)] is confident, its first embedding channel is [1], and
    both of its offset components are a quarter of a cell. *)
Definition host_cell_0_0 : Host :=
  mkHost (fun k => if k =? 0 then (9 # 10)%Q else 0%Q)
         (fun k => if (k =? 0) || (k =? 2048) then (1 # 4)%Q else 0%Q)
         (fun k => if k =? 0 then 1%Q else 0%Q).

(** Dimensions whose spatial extents disagree between the confidence
    and the offset output. *)
Definition mismatched_dims (k : Z) : Dims :=
  if k =? 3 then mkDims 1 64 32
  else if k =? 4 then mkDims 2 32 64
  else mkDims 4 64 32.

(** The channel counts [verifyOutput] asserts. *)
Definition channels_ok (mOutputDims : Z -> Dims) : bool :=
  (d0 (mOutputDims (output_base_index + 0)) =? 1)
  && (d0 (mOutputDims (output_base_index + 1)) =? 2)
  && (d0 (mOutputDims (output_base_index + 2)) =? 4).

(** The spatial extents of the three outputs agree. *)
Definition same_extents (mOutputDims : Z -> Dims) : Prop :=
  let c := mOutputDims (output_base_index + 0) in
  let o := mOutputDims (output_base_index + 1) in
  let i := mOutputDims (output_base_index + 2) in
  d1 c = d1 o /\ d2 c = d2 o /\ d1 c = d1 i /\ d2 c = d2 i.

(** The reconstruction the specification words: rounding to the nearest
    integer of the offset component plus the cell index, scaled. *)
Definition spec_round (q : Q) : Z := Qfloor (q + (1 # 2)).
Definition spec_point (d : Q) (cell : Z) : Z :=
  spec_round ((d + inject_Z cell) * inject_Z resize_ratio).

(** The names of the specification.  It describes the confidence output as
    [1 x H x W], [H] rows of [W] columns: its [H] is [d[1]] and its [W] is
    [d[2]], where the code has the width in [d[1]]. *)
Definition spec_H (dim : Dims) : Z := d1 dim.
Definition spec_W (dim : Dims) : Z := d2 dim.

(** The bounds policy in the names of the specification: every point that
    is kept lies in [[0, W) x [0, H)]. *)
Definition spec_bounds_policy (dim : Dims) (kps : list Keypoint) : Prop :=
  forall kp, In kp kps ->
    0 <= point_x kp < spec_W dim /\ 0 <= point_y kp < spec_H dim.

(** Channel [c] of the embedding of cell [(i, j)]: the embedding output
    holds [d[0]] planes, each laid out like the confidence output, which
    the mask loop reads at element [i * d[1] + j] for cell [(i, j)]. *)
Definition embedding_channel (instance_dim : Dims) (h : Host) (c i j : Z) : Q :=
  peek h (ptr_add instance0
            (c * (d1 instance_dim * d2 instance_dim) + (i * d1 instance_dim + j))).

(** ** More inputs used in examples *)

(** Cell [(1, 0)] is confident and every channel of its embedding is zero;
    the only non-zero embedding is the first channel of cell [(0, 1)]. *)
Definition host_zero_embedding : Host :=
  mkHost (fun k => if k =? 64 then (9 # 10)%Q else 0%Q) (fun _ => 0%Q)
         (fun k => if k =? 1 then 5%Q else 0%Q).

(** As [host_zero_embedding], with [7] for the first channel of cell
    [(0, 1)]. *)
Definition host_point_56 : Host :=
  mkHost (fun k => if k =? 64 then (9 # 10)%Q else 0%Q) (fun _ => 0%Q)
         (fun k => if k =? 1 then 7%Q else 0%Q).

(** Cell [(0, 0)] is confident and its first embedding channel is [8]. *)
Definition host_point_64 : Host :=
  mkHost (fun k => if k =? 0 then (9 # 10)%Q else 0%Q) (fun _ => 0%Q)
         (fun k => if k =? 0 then 8%Q else 0%Q).




(** * Further definitions *)

From Stdlib Require Import Sorted.

(** ** Predicates used for [generate_result] *)

(** Every byte reached from the data pointer of a matrix is zero. *)
Definition all_zero (m : Mat) : Prop := forall a, byte_at m a = 0.

(** Raster order of two iterations of the cell loop. *)
Definition cell_before (a b : Keypoint) : Prop :=
  cell_i a < cell_i b \/ (cell_i a = cell_i b /\ cell_j a < cell_j b).

(** The elements [chwDataToMat] loads when it is given [n] planes of
    [width] by [height] elements: plane [c] is taken from element
    [width * height * 4 * c] on. *)
Definition plane_element (n width height k : Z) : Prop :=
  exists c hh w, 0 <= c < n /\ 0 <= hh < height /\ 0 <= w < width /\
                 k = width * height * 4 * c + (hh * width + w).

(** [host_cell_0_0] with another value in the second embedding channel of
    cell [(0, 0)], element [64 * 32] of the embedding output. *)
Definition host_other_channel : Host :=
  mkHost (confidance_mem host_cell_0_0) (offsets_mem host_cell_0_0)
         (fun k => if k =? 2048 then 5%Q else instance_mem host_cell_0_0 k).

(** ** Division in binary32

    [float(b) / 255.0f] is a binary32 division: the quotient of two
    binary32 values, rounded to the nearest binary32 value, ties to the
    even significand. *)

(** Rounding to the nearest integer, ties to even. *)
Definition round_half_even (q : Q) : Z :=
  let f := Qfloor q in
  match (q - inject_Z f ?= 1 # 2)%Q with
  | Lt => f
  | Gt => f + 1
  | Eq => if Z.even f then f else f + 1
  end.

(** The exponent [e] of a positive rational: [2 ^ e <= q < 2 ^ (e + 1)]. *)
Definition binade (q : Q) : Z :=
  let e := Z.log2 (Qnum q) - Z.log2 (Zpos (Qden q)) in
  if Qle_bool (2 ^ e) q then e else e - 1.

(** The binary32 value nearest to [q], for [q] zero, or positive and in
    the range of the normal numbers: a significand of 24 bits at the
    exponent of [q]. *)
Definition binary32 (q : Q) : Q :=
  if Qle_bool q 0 then 0%Q
  else
    let e := binade q in
    Qred (inject_Z (round_half_even (q * 2 ^ (23 - e))) * 2 ^ (e - 23))%Q.

Definition float_div (a b : Q) : Q := binary32 (a / b).

(** ** processInput

    [image] is the matrix as [cv::resize] leaves it: [inputH] rows of
    [inputW] pixels, one byte per channel.  The host buffer of the input
    tensor is, like the output buffers, a map from element index to value.
    A byte converts to [float] exactly, and [255.0f] is [255]. *)

(** [image.channels()] of an 8-bit matrix. *)
Definition channels (image : Mat) : Z := elemSize image.

(** A loop over [0 .. n-1] that threads the variables [s]. *)
Definition for_range {St} (n : Z) (body : Z -> St -> St) (s : St) : St :=
  fold_left (fun s k => body k s) (range n) s.

(** The innermost loop: one row of plane [c], walked with [data]. *)
Definition fill_row (image : Mat) (c i inputW : Z) (st : Z * (Z -> Q)) : Z * (Z -> Q) :=
  let data := step image * i in
  let '(host_index, hostDataBuffer, _) :=
    for_range inputW (fun j '(host_index, hostDataBuffer, data) =>
      (host_index + 1,
       upd hostDataBuffer host_index (float_div (inject_Z (byte_at image (data + c))) 255),
       data + channels image))
    (fst st, snd st, data) in
  (host_index, hostDataBuffer).

Definition processInput (mInputDims : Dims) (image : Mat) (hostDataBuffer : Z -> Q)
  : bool * (Z -> Q) :=
  let inputC := d0 mInputDims in
  let inputW := d1 mInputDims in
  let inputH := d2 mInputDims in
  let '(host_index, hostDataBuffer) :=
    for_range inputC (fun c st =>
      for_range inputH (fun i st => fill_row image c i inputW st) st)
    (0, hostDataBuffer) in
  (true, hostDataBuffer).

(** Channel [c] of pixel [(i, j)], divided by [255.0f]. *)
Definition pixel (image : Mat) (c i j : Z) : Q :=
  float_div (inject_Z (byte_at image (step image * i + channels image * j + c))) 255.

(** A buffer that was filled from [b] on with a grid of [rows] by [cols]
    values, and is otherwise as [old]. *)
Definition filled (b rows cols : Z) (val : Z -> Z -> Q) (old new : Z -> Q) : Prop :=
  (forall r c, 0 <= r < rows -> 0 <= c < cols -> new (b + (r * cols + c)) = val r c) /\
  (forall k, k < b \/ b + rows * cols <= k -> new k = old k).

(** A 2 by 2 image of three channels whose bytes count from 0 to 11. *)
Definition tiny_image : Mat := mkMat 2 2 3 (fun a => a).
Definition tiny_dims : Dims := mkDims 3 2 2.

(** ** The planes of [chwDataToMat] *)

(** Plane [c] as the two inner loops leave it. *)
Definition plane_of (raw : Z -> Z -> Z) (width height : Z) (src : ptr) (mask : Mat)
    (h : Host) (c : Z) : Mat :=
  snd (fst (plane_loop c width height mask (ptr_add src (width * height * 4 * c))
              (Mat_new width height 4 (raw c)) h)).

(** The cells the plane loop has gone through when it is at column [hh]
    and row [w] of a plane of 64 rows. *)
Definition plane_done (hh w hh' w' : Z) : Prop :=
  0 <= w' < 64 /\ 0 <= hh' /\ (hh' < hh \/ (hh' = hh /\ w' < w)).

(** The bytes plane 0 holds for the cells gone through: the converted
    product in the first byte of the element, zero in the second. *)
Definition plane0_written (mask : Mat) (p0 : ptr) (h : Host)
    (done : Z -> Z -> Prop) (m : Mat) : Prop :=
  step m = 128 /\ elemSize m = 4 /\
  forall hh' w', done hh' w' ->
    byte_at m (128 * w' + 4 * hh')
    = to_uchar (peek h (ptr_add p0 (hh' * 64 + w')) * inject_Z (at_int mask w' hh')) /\
    byte_at m (128 * w' + 4 * hh' + 1) = 0.

(** * Properties *)

(** ** Comparisons and casts *)

Lemma Qgtb_spec (a b : Q) : Qgtb a b = true <-> (b < a)%Q.
Proof. unfold Qgtb, Qlt. apply Z.ltb_lt. Qed.

Lemma Qgtb_false (a b : Q) : Qgtb a b = false <-> (a <= b)%Q.
Proof. unfold Qgtb, Qle. apply Z.ltb_ge. Qed.

Lemma Qltb_spec (a b : Q) : Qltb a b = true <-> (a < b)%Q.
Proof. apply Qgtb_spec. Qed.

Lemma Qtrunc_int_arith (a b c : Z) :
  Qtrunc ((inject_Z a + inject_Z b) * inject_Z c) = (a + b) * c.
Proof.
  unfold Qtrunc, inject_Z, Qplus, Qmult. simpl.
  rewrite Z.quot_1_r. ring.
Qed.

Lemma byte_at_range (m : Mat) (o : Z) : 0 <= byte_at m o < 256.
Proof. unfold byte_at. apply Z.mod_pos_bound. lia. Qed.

Lemma in_range (n k : Z) : In k (range n) <-> 0 <= k < n.
Proof.
  unfold range. rewrite in_map_iff. split.
  - intros [x [<- Hx]]. apply in_seq in Hx. lia.
  - intros Hk. exists (Z.to_nat k). split; [lia|]. apply in_seq. lia.
Qed.

(** ** The monad: what a computation leaves in the host buffers *)

Lemma bind_run {A B} (m : M A) (k : A -> M B) (h : Host) :
  bind m k h = k (fst (m h)) (snd (m h)).
Proof. unfold bind. destruct (m h). reflexivity. Qed.

Lemma frame_ret {A} (a : A) : frame (ret a).
Proof. intro h. reflexivity. Qed.

Lemma frame_load (p : ptr) : frame (load p).
Proof. intro h. reflexivity. Qed.

Lemma frame_bind {A B} (m : M A) (k : A -> M B) :
  frame m -> (forall a, frame (k a)) -> frame (bind m k).
Proof.
  intros Hm Hk h. rewrite bind_run, Hm. apply Hk.
Qed.

Lemma frame_for_each {A S} (l : list A) (body : A -> S -> M S) :
  (forall a s, frame (body a s)) -> forall s, frame (for_each l body s).
Proof.
  intros Hb. induction l as [|a l IH]; intros s; simpl.
  - apply frame_ret.
  - apply frame_bind; [apply Hb | exact IH].
Qed.

Create HintDb frame.
#[local] Hint Resolve frame_ret frame_load : frame.

Lemma frame_mask_loop dim thresh confidance mask :
  frame (mask_loop dim thresh confidance mask).
Proof.
  unfold mask_loop. apply frame_for_each. intros i st.
  apply frame_for_each. intros j [p m].
  apply frame_bind; auto with frame.
Qed.

Lemma frame_plane_loop c width height mask channel_data channel :
  frame (plane_loop c width height mask channel_data channel).
Proof.
  unfold plane_loop. apply frame_for_each. intros hh st.
  apply frame_for_each. intros w [p m].
  apply frame_bind; auto with frame.
Qed.

Lemma frame_chwDataToMat raw n width height data mask :
  frame (chwDataToMat raw n width height data mask).
Proof.
  unfold chwDataToMat. apply frame_bind; [|auto with frame].
  apply frame_for_each. intros c channels.
  apply frame_bind; [apply frame_plane_loop | auto with frame].
Qed.

Lemma frame_generate_result g dims confidance offsets instance thresh :
  frame (generate_result g dims confidance offsets instance thresh).
Proof.
  unfold generate_result.
  apply frame_bind; [apply frame_mask_loop|]. intros st.
  apply frame_bind; [apply frame_chwDataToMat|]. intros offset.
  apply frame_bind; [apply frame_chwDataToMat|]. auto with frame.
Qed.

Lemma frame_verifyOutput g dims : frame (verifyOutput g dims).
Proof.
  unfold verifyOutput.
  destruct (negb _); [apply frame_ret|].
  destruct (negb _); [apply frame_ret|].
  destruct (negb _); [apply frame_ret|].
  apply frame_bind.
  - apply frame_for_each. intros i acc. apply frame_for_each. intros j acc'.
    apply frame_bind; auto with frame.
  - intros printed. apply frame_bind; [apply frame_generate_result|].
    auto with frame.
Qed.

(** The result of a call in terms of the mask and the feature matrix. *)
Lemma generate_result_eq g dims confidance offsets instance thresh h :
  fst (generate_result g dims confidance offsets instance thresh h) =
  let dim := dims output_base_index in
  let mask := mask_of g dim confidance thresh h in
  mkResult
    (map (fun i => map (fun j => at_int mask i j) (range (d1 dim))) (range (d2 dim)))
    (cell_loop dim (feature_of g dims confidance instance thresh h)).
Proof.
  unfold generate_result, feature_of, mask_of.
  rewrite bind_run, frame_mask_loop.
  rewrite bind_run, frame_chwDataToMat.
  rewrite bind_run, frame_chwDataToMat.
  reflexivity.
Qed.

(** ** The monad: what a computation depends on *)

Lemma off_equiv_with_offsets h o : off_equiv (with_offsets h o) h.
Proof. split; reflexivity. Qed.

Lemma off_blind_ret {A} (a : A) : off_blind (ret a).
Proof. intros h h' _. reflexivity. Qed.

Lemma off_blind_load (p : ptr) : base p <> Offsets -> off_blind (load p).
Proof.
  intros Hp h h' [Hc Hi]. unfold load, peek. simpl.
  destruct (base p); congruence.
Qed.

Lemma off_blind_bind {A B} (m : M A) (k : A -> M B) :
  frame m -> off_blind m -> (forall a, off_blind (k a)) -> off_blind (bind m k).
Proof.
  intros Hf Hm Hk h h' E.
  rewrite !bind_run, !Hf, (Hm h h' E). apply Hk, E.
Qed.

(** A computation whose value is dropped may read anything. *)
Lemma off_blind_seq {A B} (m : M A) (k : M B) :
  frame m -> off_blind k -> off_blind (m ;;; k).
Proof.
  intros Hf Hk h h' E. rewrite !bind_run, !Hf. apply Hk, E.
Qed.

Lemma off_blind_for_each {A S} (I : S -> Prop) (l : list A) (body : A -> S -> M S) :
  (forall a s, frame (body a s)) ->
  (forall a s, I s -> off_blind (body a s)) ->
  (forall a s h, I s -> I (fst (body a s h))) ->
  forall s, I s ->
    off_blind (for_each l body s) /\ (forall h, I (fst (for_each l body s h))).
Proof.
  intros Hf Hb Hi. induction l as [|a l IH]; intros s Hs; simpl.
  - split; [apply off_blind_ret | intros h; exact Hs].
  - split.
    + intros h h' E. rewrite !bind_run, !Hf.
      rewrite (Hb a s Hs h h' E).
      apply (IH (fst (body a s h'))); [apply Hi, Hs | exact E].
    + intros h. rewrite bind_run, Hf. apply IH. apply Hi, Hs.
Qed.

Lemma off_blind_walk {A} (l : list A) (f : A -> ptr -> Mat -> Q -> Mat) st :
  away_from_offsets st ->
  off_blind (for_each l (fun a '(p, m) => v <- load p ;; ret (ptr_add p 1, f a p m v)) st)
  /\ (forall h, away_from_offsets
         (fst (for_each l (fun a '(p, m) => v <- load p ;; ret (ptr_add p 1, f a p m v)) st h))).
Proof.
  apply (off_blind_for_each away_from_offsets).
  - intros a [p m]. apply frame_bind; auto with frame.
  - intros a [p m] Hp. apply off_blind_bind; [apply frame_load | |].
    + apply off_blind_load, Hp.
    + intros v. apply off_blind_ret.
  - intros a [p m] h Hp. exact Hp.
Qed.

Lemma frame_walk {A} (l : list A) (f : A -> ptr -> Mat -> Q -> Mat) st :
  frame (for_each l (fun a '(p, m) => v <- load p ;; ret (ptr_add p 1, f a p m v)) st).
Proof.
  apply frame_for_each. intros a [p m]. apply frame_bind; auto with frame.
Qed.

Lemma off_blind_mask_loop dim thresh confidance mask :
  base confidance <> Offsets ->
  off_blind (mask_loop dim thresh confidance mask).
Proof.
  intros Hc. unfold mask_loop.
  apply (off_blind_for_each away_from_offsets); [| | |exact Hc].
  - intros i st.
    apply (frame_walk _ (fun j _ m v => if Qgtb v thresh then set_at_int m i j 1 else m)).
  - intros i st Hst.
    apply (off_blind_walk _
             (fun j _ m v => if Qgtb v thresh then set_at_int m i j 1 else m) st Hst).
  - intros i st h Hst.
    apply (off_blind_walk _
             (fun j _ m v => if Qgtb v thresh then set_at_int m i j 1 else m) st Hst).
Qed.

Lemma off_blind_plane_loop c width height mask channel_data channel :
  base channel_data <> Offsets ->
  off_blind (plane_loop c width height mask channel_data channel).
Proof.
  intros Hd. unfold plane_loop.
  apply (off_blind_for_each away_from_offsets); [| | |exact Hd].
  - intros hh st.
    apply (frame_walk _ (fun w _ m v =>
             set_ptr_Vec3b m w hh c (to_uchar (v * inject_Z (at_int mask w hh))))).
  - intros hh st Hst.
    apply (off_blind_walk _ (fun w _ m v =>
             set_ptr_Vec3b m w hh c (to_uchar (v * inject_Z (at_int mask w hh)))) st Hst).
  - intros hh st h Hst.
    apply (off_blind_walk _ (fun w _ m v =>
             set_ptr_Vec3b m w hh c (to_uchar (v * inject_Z (at_int mask w hh)))) st Hst).
Qed.

Lemma off_blind_chwDataToMat raw n width height data mask :
  base data <> Offsets ->
  off_blind (chwDataToMat raw n width height data mask).
Proof.
  intros Hd. unfold chwDataToMat.
  apply off_blind_bind.
  - apply frame_for_each. intros c channels.
    apply frame_bind; [apply frame_plane_loop | auto with frame].
  - apply (off_blind_for_each (fun _ : list Mat => True)); [| | |exact I].
    + intros c channels.
      apply frame_bind; [apply frame_plane_loop | auto with frame].
    + intros c channels _. apply off_blind_bind.
      * apply frame_plane_loop.
      * apply off_blind_plane_loop. exact Hd.
      * intros st. apply off_blind_ret.
    + intros; exact I.
  - intros channels. apply off_blind_ret.
Qed.

Lemma off_blind_generate_result g dims confidance offsets instance thresh :
  base confidance <> Offsets -> base instance <> Offsets ->
  off_blind (generate_result g dims confidance offsets instance thresh).
Proof.
  intros Hc Hi. unfold generate_result.
  apply off_blind_bind;
    [apply frame_mask_loop | apply off_blind_mask_loop, Hc |].
  intros st. apply off_blind_seq; [apply frame_chwDataToMat|].
  apply off_blind_bind;
    [apply frame_chwDataToMat | apply off_blind_chwDataToMat, Hi |].
  intros feature. apply off_blind_ret.
Qed.

(** ** The cell loop *)

Lemma in_cell_loop dim feature kp :
  In kp (cell_loop dim feature) <->
  exists i j, 0 <= i < H dim /\ 0 <= j < W dim /\ cell_body dim feature i j = Some kp.
Proof.
  unfold cell_loop, H, W. rewrite in_flat_map. split.
  - intros [i [Hi Hkp]]. apply in_flat_map in Hkp. destruct Hkp as [j [Hj Hkp]].
    exists i, j. rewrite in_range in Hi, Hj. repeat split; try lia.
    destruct (cell_body dim feature i j); simpl in Hkp; [|contradiction].
    destruct Hkp as [->|[]]. reflexivity.
  - intros [i [j [Hi [Hj E]]]]. exists i. split; [apply in_range; lia|].
    apply in_flat_map. exists j. split; [apply in_range; lia|].
    rewrite E. left. reflexivity.
Qed.

Lemma cell_body_cell dim feature i j kp :
  cell_body dim feature i j = Some kp ->
  cell_i kp = i /\ cell_j kp = j /\
  point_x kp = cell_point_x feature i j /\ point_y kp = cell_point_y feature i j.
Proof.
  unfold cell_body.
  destruct (Qltb _ _); [discriminate|].
  destruct (_ || _); [discriminate|].
  intros E. injection E as <-. simpl. auto.
Qed.

(** The point of a cell, without the detour through [float]. *)
Lemma cell_point_x_eq feature i j :
  cell_point_x feature i j = (at_Vec3b feature i j 0 + j) * resize_ratio.
Proof. unfold cell_point_x, feature0. apply Qtrunc_int_arith. Qed.

Lemma cell_point_y_eq feature i j :
  cell_point_y feature i j = (at_Vec3b feature i j 1 + i) * resize_ratio.
Proof. unfold cell_point_y, feature1. apply Qtrunc_int_arith. Qed.

(** A [uchar] below the epsilon is zero. *)
Lemma small_byte_zero (b : Z) :
  0 <= b -> (Qabs (inject_Z b) < degenerate_eps)%Q -> b = 0.
Proof.
  intros Hb Hlt.
  rewrite Qabs_pos in Hlt by (unfold Qle, inject_Z; simpl; lia).
  unfold Qlt, inject_Z, degenerate_eps in Hlt. simpl in Hlt. lia.
Qed.

Lemma cell_body_degenerate dim feature i j :
  (Qabs (feature0 feature i j) < degenerate_eps)%Q ->
  (Qabs (feature1 feature i j) < degenerate_eps)%Q ->
  cell_body dim feature i j = None.
Proof.
  unfold feature0, feature1, at_Vec3b. intros H0 H1.
  apply small_byte_zero in H0; [|apply byte_at_range].
  apply small_byte_zero in H1; [|apply byte_at_range].
  unfold cell_body, feature0, feature1, at_Vec3b. rewrite H0, H1.
  reflexivity.
Qed.

Lemma cell_body_outside dim feature i j :
  cell_point_x feature i j < 0 \/ cell_point_x feature i j >= W dim \/
  cell_point_y feature i j < 0 \/ cell_point_y feature i j >= H dim ->
  cell_body dim feature i j = None.
Proof.
  unfold W, H, cell_body. intros Hout.
  destruct (Qltb _ _); [reflexivity|].
  replace ((cell_point_x feature i j <? 0) || (cell_point_x feature i j >=? d1 dim)
           || (cell_point_y feature i j <? 0) || (cell_point_y feature i j >=? d2 dim))
    with true; [reflexivity|].
  symmetry. rewrite !orb_true_iff, !Z.ltb_lt, !Z.geb_le. lia.
Qed.


(** ** Loops over an index range *)

Lemma for_each_seq_inv {St} (body : Z -> St -> M St) (h : Host) (P : Z -> St -> Prop) :
  (forall a s, frame (body a s)) ->
  forall (len a : nat) (s : St),
    P (Z.of_nat a) s ->
    (forall k s, Z.of_nat a <= k < Z.of_nat (a + len) -> P k s ->
                 P (k + 1) (fst (body k s h))) ->
    P (Z.of_nat (a + len)) (fst (for_each (map Z.of_nat (seq a len)) body s h)).
Proof.
  intros Hf. induction len as [|len IH]; intros a s Hs Hstep; simpl.
  - rewrite Nat.add_0_r. exact Hs.
  - rewrite bind_run, Hf.
    replace (a + S len)%nat with (S a + len)%nat by lia.
    apply IH.
    + replace (Z.of_nat (S a)) with (Z.of_nat a + 1) by lia.
      apply Hstep; [lia | exact Hs].
    + intros k s' Hk. apply Hstep. lia.
Qed.

Lemma for_range_inv {St} (n : Z) (body : Z -> St -> M St) (h : Host)
    (P : Z -> St -> Prop) (s : St) :
  (forall a s, frame (body a s)) ->
  0 <= n ->
  P 0 s ->
  (forall k s, 0 <= k < n -> P k s -> P (k + 1) (fst (body k s h))) ->
  P n (fst (for_each (range n) body s h)).
Proof.
  intros Hf Hn Hs Hstep. unfold range.
  pose proof (for_each_seq_inv body h P Hf (Z.to_nat n) 0 s) as L.
  simpl in L. rewrite Z2Nat.id in L by exact Hn.
  apply L; [exact Hs | exact Hstep].
Qed.

(** ** The mask *)

(** *** Bytes and words *)

Lemma byte_at_set_byte (m : Mat) (o v a : Z) :
  byte_at (set_byte m o v) a = if a =? o then v mod 256 else byte_at m a.
Proof.
  unfold byte_at, set_byte, upd. simpl.
  destruct (a =? o); [apply Z.mod_mod; lia | reflexivity].
Qed.

Ltac eqb_lia :=
  repeat match goal with
  | |- context [?a =? ?b] =>
      first [ replace (a =? b) with false by (symmetry; apply Z.eqb_neq; lia)
            | replace (a =? b) with true by (symmetry; apply Z.eqb_eq; lia) ]
  end.

Lemma read_int_write_same (m : Mat) (o : Z) : read_int (write_int m o 1) o = 1.
Proof.
  unfold read_int, write_int. rewrite !byte_at_set_byte. eqb_lia. reflexivity.
Qed.

Lemma read_int_write_far (m : Mat) (o v a : Z) :
  a + 3 < o \/ o + 3 < a -> read_int (write_int m o v) a = read_int m a.
Proof.
  intros Hfar. unfold read_int, write_int. rewrite !byte_at_set_byte.
  eqb_lia. reflexivity.
Qed.

Lemma step_write_int (m : Mat) (o v : Z) : step (write_int m o v) = step m.
Proof. reflexivity. Qed.

(** *** What the mask loop leaves in the words of the mask *)

Lemma words_marked_ext h thresh (cells cells' : Z -> Z -> Prop) m :
  (forall i' j', cells i' j' <-> cells' i' j') ->
  words_marked h thresh cells m -> words_marked h thresh cells' m.
Proof.
  intros E [Hs Hw]. split; [exact Hs|].
  intros q Hq. destruct (Hw q Hq) as [[Hr [i' [j' [Hc Hx]]]]|[Hr Hn]].
  - left. split; [exact Hr|]. exists i', j'. split; [apply E, Hc | exact Hx].
  - right. split; [exact Hr|]. intros [i' [j' [Hc Hx]]].
    apply Hn. exists i', j'. split; [apply E, Hc | exact Hx].
Qed.

Lemma words_marked_zeros h thresh raw :
  words_marked h thresh (gone_through 0 0) (Mat_zeros 64 32 1 raw).
Proof.
  split; [reflexivity|]. intros q Hq. right. split.
  - assert (B : forall a, 0 <= a < 2048 -> byte_at (Mat_zeros 64 32 1 raw) a = 0).
    { intros a Ha. unfold byte_at, Mat_zeros. cbn [data].
      change (64 * 32 * 1) with 2048.
      replace (0 <=? a) with true by (symmetry; apply Z.leb_le; lia).
      replace (a <? 2048) with true by (symmetry; apply Z.ltb_lt; lia).
      reflexivity. }
    unfold read_int. rewrite !B by lia. reflexivity.
  - intros [i' [j' [[Hi [Hj Hlt]] _]]]. lia.
Qed.

(** One cell of the mask loop. *)
Lemma words_marked_cell h thresh i j m :
  0 <= i < 32 -> 0 <= j < 64 ->
  words_marked h thresh (gone_through i j) m ->
  words_marked h thresh (gone_through i (j + 1))
    (if Qgtb (peek h (mkPtr Confidance (i * 64 + j))) thresh
     then set_at_int m i j 1 else m).
Proof.
  intros Hi Hj [Hs Hw].
  assert (Hgrow : forall i' j', gone_through i j i' j' -> gone_through i (j + 1) i' j').
  { unfold gone_through. intros i' j' H. lia. }
  assert (Hnew : forall i' j', gone_through i (j + 1) i' j' ->
                   gone_through i j i' j' \/ (i' = i /\ j' = j)).
  { unfold gone_through. intros i' j' H. lia. }
  destruct (Qgtb (peek h (mkPtr Confidance (i * 64 + j))) thresh) eqn:Hgt.
  - apply Qgtb_spec in Hgt.
    unfold set_at_int, at_int_offset. rewrite Hs.
    split; [rewrite step_write_int; exact Hs|].
    intros q Hq. destruct (Z.eq_dec q (8 * i + j)) as [->|Hne].
    + left. split.
      * replace (32 * i + 4 * j) with (4 * (8 * i + j)) by lia.
        apply read_int_write_same.
      * exists i, j. split; [unfold gone_through; lia|]. split; [reflexivity | exact Hgt].
    + rewrite read_int_write_far by lia.
      destruct (Hw q Hq) as [[Hr [i' [j' [Hc Hx]]]]|[Hr Hn]].
      * left. split; [exact Hr|]. exists i', j'. split; [apply Hgrow, Hc | exact Hx].
      * right. split; [exact Hr|]. intros [i' [j' [Hc [Eq Hab]]]].
        destruct (Hnew i' j' Hc) as [Hold|[-> ->]]; [|lia].
        apply Hn. exists i', j'. auto.
  - apply Qgtb_false in Hgt.
    split; [exact Hs|].
    intros q Hq. destruct (Hw q Hq) as [[Hr [i' [j' [Hc Hx]]]]|[Hr Hn]].
    + left. split; [exact Hr|]. exists i', j'. split; [apply Hgrow, Hc | exact Hx].
    + right. split; [exact Hr|]. intros [i' [j' [Hc [Eq Hab]]]].
      destruct (Hnew i' j' Hc) as [Hold|[-> ->]].
      * apply Hn. exists i', j'. auto.
      * unfold above in Hab. apply (Qlt_not_le _ _ Hab). exact Hgt.
Qed.

(** For the recorded dimensions, every word of the finished mask is [1]
    if a cell above the threshold is stored in it and [0] otherwise. *)
Lemma mask_words g thresh h :
  words_marked h thresh (gone_through 32 0)
    (mask_of g (pinet_dims output_base_index) confidance0 thresh h).
Proof.
  unfold mask_of, mask_loop.
  change (d2 (pinet_dims output_base_index)) with 32.
  change (d1 (pinet_dims output_base_index)) with 64.
  pose (P := fun (i : Z) (st : ptr * Mat) =>
               fst st = mkPtr Confidance (i * 64) /\
               words_marked h thresh (gone_through i 0) (snd st)).
  assert (Hfin : P 32 (fst (for_each (range 32)
            (fun i st => for_each (range 64)
               (fun j '(confidance_ptr, mask) =>
                  v <- load confidance_ptr ;;
                  ret (ptr_add confidance_ptr 1,
                       if Qgtb v thresh then set_at_int mask i j 1 else mask)) st)
            (confidance0, Mat_zeros 64 32 1 (junk_mask g)) h))).
  { apply for_range_inv.
    - intros i st.
      apply (frame_walk _ (fun j _ m v => if Qgtb v thresh then set_at_int m i j 1 else m)).
    - lia.
    - split; [reflexivity | apply words_marked_zeros].
    - intros i st Hi [Hp Hw].
      pose (Q := fun (j : Z) (st : ptr * Mat) =>
                   fst st = mkPtr Confidance (i * 64 + j) /\
                   words_marked h thresh (gone_through i j) (snd st)).
      assert (Hrow : Q 64 (fst (for_each (range 64)
                (fun j '(confidance_ptr, mask) =>
                   v <- load confidance_ptr ;;
                   ret (ptr_add confidance_ptr 1,
                        if Qgtb v thresh then set_at_int mask i j 1 else mask)) st h))).
      { apply for_range_inv.
        - intros j [p m]. apply frame_bind; auto with frame.
        - lia.
        - split; [rewrite Hp; f_equal; lia | exact Hw].
        - intros j [p m] Hj [Hq Hwq]. simpl in Hq. subst p.
          split.
          + simpl. unfold ptr_add. simpl. f_equal. lia.
          + simpl. apply words_marked_cell; assumption. }
      destruct Hrow as [Hp' Hw']. split.
      + rewrite Hp'. f_equal. lia.
      + apply (words_marked_ext h thresh (gone_through i 64)); [|exact Hw'].
        unfold gone_through. intros i' j'. lia. }
  exact (proj2 Hfin).
Qed.

(** For the recorded dimensions the mask reads [1] at a cell exactly when
    one of the cells stored in the same word is above the threshold: the
    cell [(i, j)] shares its word with every cell [(i', j')] of the grid
    such that [8 * i' + j' = 8 * i + j]. *)
Lemma mask_cell_shares_word g thresh h i j :
  0 <= i < 32 -> 0 <= j < 64 ->
  let mask := mask_of g (pinet_dims output_base_index) confidance0 thresh h in
  (at_int mask i j = 1 <->
   exists i' j', 0 <= i' < 32 /\ 0 <= j' < 64 /\ 8 * i' + j' = 8 * i + j /\
                 above h thresh i' j') /\
  (at_int mask i j = 0 \/ at_int mask i j = 1).
Proof.
  intros Hi Hj mask.
  destruct (mask_words g thresh h) as [Hs Hw]. fold mask in Hs, Hw.
  unfold at_int, at_int_offset. rewrite Hs.
  replace (32 * i + 4 * j) with (4 * (8 * i + j)) by lia.
  destruct (Hw (8 * i + j) ltac:(lia)) as [[Hr [i' [j' [[Hi0 [Hj0 Hlt]] [Eq Hab]]]]]|[Hr Hn]].
  - split; [|right; exact Hr]. split; [|intros _; exact Hr].
    intros _. exists i', j'. repeat split; try lia. exact Hab.
  - split; [|left; exact Hr]. split.
    + rewrite Hr. discriminate.
    + intros [i' [j' [Hi' [Hj' [Eq Hab]]]]]. exfalso. apply Hn.
      exists i', j'. split; [unfold gone_through; lia | auto].
Qed.

(** C2.  The claim: the mask marks a cell exactly when its confidence is
    strictly above the threshold.  The code stores a 4-byte [int] per cell
    into a matrix of one byte per cell with rows of [d[2]] bytes, so cell
    [(i, j)] lives at byte [d[2] * i + 4 * j], and cells share storage.  For
    the recorded dimensions and a grid in which only the ninth confidence,
    that of cell [(0, 8)], is above the threshold, the mask reads [1] at
    cell [(1, 0)] as well, which is how it is logged, although every other
    confidence is zero. *)
Theorem mask_marks_cell_below_threshold :
  forall g : Garbage,
  let dim := pinet_dims output_base_index in
  let mask := mask_of g dim confidance0 threshold_point host_cell_0_8 in
  at_int_offset mask 0 8 = at_int_offset mask 1 0 /\
  at_int mask 0 8 = 1 /\
  at_int mask 1 0 = 1 /\
  (forall k, k <> 8 -> peek host_cell_0_8 (ptr_add confidance0 k) = 0%Q) /\
  (peek host_cell_0_8 (ptr_add confidance0 (1 * W dim + 0)) <= threshold_point)%Q /\
  nth 0 (nth 1 (mask_log (fst (generate_result g pinet_dims confidance0 offsets0
                                 instance0 threshold_point host_cell_0_8))) []) 0 = 1.
Proof.
  intros g dim mask.
  assert (E : at_int mask 1 0 = 1) by (vm_compute; reflexivity).
  split; [vm_compute; reflexivity|].
  split; [vm_compute; reflexivity|].
  split; [exact E|].
  split.
  { intros k Hk. unfold peek, host_cell_0_8, confidance0, ptr_add. simpl.
    destruct (k =? 8) eqn:Ek; [apply Z.eqb_eq in Ek; lia | reflexivity]. }
  split; [vm_compute; discriminate|].
  rewrite generate_result_eq. exact E.
Qed.

(** The comparison itself is strict: a confidence equal to the threshold
    leaves the cell unmarked. *)
Lemma mask_threshold_is_strict :
  forall g : Garbage,
  at_int (mask_of g (pinet_dims output_base_index) confidance0 threshold_point
            host_at_threshold) 0 0 = 0.
Proof. intros g. vm_compute. reflexivity. Qed.

(** ** The point of a cell *)

(** C3.  The claim: the point of a cell is computed from the offset
    components of that cell.  The code adds the cell indices to
    [feature0] and [feature1], two bytes of the matrix built from the
    embedding output; the matrix built from the offset output is not read.
    For the recorded dimensions, a confident cell [(0, 0)] whose embedding
    starts with [1] gets the point [(8, 0)] whatever the offset buffer
    holds, where its offsets of a quarter of a cell would give [(2, 2)]. *)
Theorem point_of_cell_ignores_offsets :
  (forall (g : Garbage) (o : Z -> Q),
     In (mkKeypoint 0 0 8 0)
        (keypoints (fst (generate_result g pinet_dims confidance0 offsets0 instance0
                           threshold_point (with_offsets host_cell_0_0 o))))) /\
  keypoints (fst (generate_result zero_garbage pinet_dims confidance0 offsets0 instance0
                    threshold_point host_cell_0_0))
  = [mkKeypoint 0 0 8 0] /\
  peek host_cell_0_0 (ptr_add offsets0 0) = (1 # 4)%Q /\
  peek host_cell_0_0 (ptr_add offsets0 (64 * 32)) = (1 # 4)%Q /\
  spec_point (1 # 4) 0 = 2.
Proof.
  split; [|split; [vm_compute; reflexivity | repeat split]].
  intros g o.
  rewrite (off_blind_generate_result g pinet_dims confidance0 offsets0
             instance0 threshold_point) with (h' := host_cell_0_0);
    [| discriminate | discriminate | apply off_equiv_with_offsets].
  rewrite generate_result_eq. cbn [keypoints].
  apply (proj2 (in_cell_loop _ _ _)). exists 0, 0.
  split; [vm_compute; split; [discriminate | reflexivity]|].
  split; [vm_compute; split; [discriminate | reflexivity]|].
  vm_compute. reflexivity.
Qed.

(** ** The degenerate test *)

(** X15.  A cell for which the cell loop reads two zero bytes, which is
    what both of [feature0] and [feature1] being below the epsilon in
    absolute value comes to, is skipped: no iteration of the cell loop
    reaches the end of the body for it. *)
Theorem degenerate_cell_is_skipped
    (g : Garbage) (dims : Z -> Dims) (confidance offsets instance : ptr)
    (thresh : Q) (h : Host) (i j : Z) :
  let feature := feature_of g dims confidance instance thresh h in
  (Qabs (feature0 feature i j) < degenerate_eps)%Q ->
  (Qabs (feature1 feature i j) < degenerate_eps)%Q ->
  cell_body (dims output_base_index) feature i j = None /\
  forall kp,
    In kp (keypoints (fst (generate_result g dims confidance offsets instance thresh h))) ->
    ~ (cell_i kp = i /\ cell_j kp = j).
Proof.
  intros feature H0 H1.
  pose proof (cell_body_degenerate (dims output_base_index) feature i j H0 H1) as Hskip.
  split; [exact Hskip|].
  intros kp Hin [Hi Hj].
  rewrite generate_result_eq in Hin. simpl in Hin.
  apply in_cell_loop in Hin. destruct Hin as [i' [j' [_ [_ E]]]].
  destruct (cell_body_cell _ _ _ _ _ E) as [Ei [Ej _]].
  fold feature in E. rewrite Ei in Hi. rewrite Ej in Hj. subst i' j'.
  rewrite Hskip in E. discriminate.
Qed.

(** Cell [(0, 8)] of [host_cell_0_8]: it is confident, the mask reads [1]
    for it, and the two bytes read for it are zero. *)
Lemma degenerate_cell_is_skipped_witness :
  let mask := mask_of zero_garbage (pinet_dims output_base_index) confidance0
                threshold_point host_cell_0_8 in
  let feature := feature_of zero_garbage pinet_dims confidance0 instance0
                   threshold_point host_cell_0_8 in
  at_int mask 0 8 = 1 /\
  (Qabs (feature0 feature 0 8) < degenerate_eps)%Q /\
  (Qabs (feature1 feature 0 8) < degenerate_eps)%Q /\
  cell_body (pinet_dims output_base_index) feature 0 8 = None.
Proof.
  assert (H0 : (Qabs (feature0 (feature_of zero_garbage pinet_dims confidance0 instance0
                                  threshold_point host_cell_0_8) 0 8) < degenerate_eps)%Q)
    by (vm_compute; reflexivity).
  assert (H1 : (Qabs (feature1 (feature_of zero_garbage pinet_dims confidance0 instance0
                                  threshold_point host_cell_0_8) 0 8) < degenerate_eps)%Q)
    by (vm_compute; reflexivity).
  split; [vm_compute; reflexivity|].
  split; [exact H0|]. split; [exact H1|].
  exact (proj1 (degenerate_cell_is_skipped zero_garbage pinet_dims confidance0 offsets0
                  instance0 threshold_point host_cell_0_8 0 8 H0 H1)).
Defined.

(** C4.  The claim: a confident cell whose first two embedding channels
    are both below the epsilon is skipped.  The test of the code is on the
    two bytes [feature.at<cv::Vec3b>(i, j)[0]] and [[1]] of the matrix
    built from the embedding output, and for the recorded dimensions the
    first of them is taken, for cell [(i, 0)], from element [i] of the
    embedding output, which belongs to cell [(0, i)].  With a confident
    cell [(1, 0)] whose embedding is zero in all four channels and [5] in
    the first channel of cell [(0, 1)], the mask reads [1] for cell
    [(1, 0)], the two bytes read for it are [5] and [0], and the cell is
    kept, with the point [(40, 8)]. *)
Theorem zero_embedding_cell_is_kept :
  let dim := pinet_dims output_base_index in
  let instance_dim := pinet_dims (output_base_index + 2) in
  above host_zero_embedding threshold_point 1 0 /\
  (forall c, embedding_channel instance_dim host_zero_embedding c 1 0 == 0)%Q /\
  (forall g : Garbage,
     let mask := mask_of g dim confidance0 threshold_point host_zero_embedding in
     let feature := feature_of g pinet_dims confidance0 instance0 threshold_point
                      host_zero_embedding in
     at_int mask 1 0 = 1 /\
     at_Vec3b feature 1 0 0 = 5 /\ at_Vec3b feature 1 0 1 = 0 /\
     In (mkKeypoint 1 0 40 8)
        (keypoints (fst (generate_result g pinet_dims confidance0 offsets0 instance0
                           threshold_point host_zero_embedding)))) /\
  keypoints (fst (generate_result zero_garbage pinet_dims confidance0 offsets0 instance0
                    threshold_point host_zero_embedding))
  = [mkKeypoint 1 0 40 8].
Proof.
  intros dim instance_dim.
  split; [vm_compute; reflexivity|].
  split.
  { intros c. unfold embedding_channel, peek, ptr_add, instance0, host_zero_embedding,
      instance_dim. cbn.
    destruct (_ =? 1) eqn:E; [apply Z.eqb_eq in E; lia | reflexivity]. }
  split; [|vm_compute; reflexivity].
  intros g mask feature.
  split; [vm_compute; reflexivity|].
  split; [vm_compute; reflexivity|].
  split; [vm_compute; reflexivity|].
  rewrite generate_result_eq. cbn [keypoints].
  apply (proj2 (in_cell_loop _ _ _)). exists 1, 0.
  split; [vm_compute; split; [discriminate | reflexivity]|].
  split; [vm_compute; split; [discriminate | reflexivity]|].
  vm_compute. reflexivity.
Qed.

(** ** The bounds test *)

(** C5, as the claim has it, fails.  The specification has the grid as
    [1 x H x W], so for the recorded dimensions [H = 64] and [W = 32]; the
    code compares [point_x] with [d[1]], which is that [H].  With a
    confident cell [(1, 0)] for which the cell loop reads the byte [7], the
    point [(56, 8)] is kept, and [56] is not below [W]. *)
Lemma point_beyond_spec_width_is_kept :
  let dim := pinet_dims output_base_index in
  spec_W dim = 32 /\
  forall g : Garbage,
    In (mkKeypoint 1 0 56 8)
       (keypoints (fst (generate_result g pinet_dims confidance0 offsets0 instance0
                          threshold_point host_point_56))) /\
    ~ spec_bounds_policy dim
        (keypoints (fst (generate_result g pinet_dims confidance0 offsets0 instance0
                           threshold_point host_point_56))).
Proof.
  intros dim. split; [reflexivity|]. intros g.
  assert (Hin : In (mkKeypoint 1 0 56 8)
                   (keypoints (fst (generate_result g pinet_dims confidance0 offsets0
                                      instance0 threshold_point host_point_56)))).
  { rewrite generate_result_eq. cbn [keypoints].
    apply (proj2 (in_cell_loop _ _ _)). exists 1, 0.
    split; [vm_compute; split; [discriminate | reflexivity]|].
    split; [vm_compute; split; [discriminate | reflexivity]|].
    vm_compute. reflexivity. }
  split; [exact Hin|].
  intros P. destruct (P _ Hin) as [[_ Hx] _].
  cbn in Hx. unfold spec_W, dim in Hx. cbn in Hx. lia.
Qed.

(** C5, amended.  A point that was reconstructed, for a cell that passed
    the degenerate test, and whose [point_x] falls outside [[0, d[1])] or
    whose [point_y] falls outside [[0, d[2])], the extents of the grid
    itself in the order the code reads them, is skipped without any
    report: the iteration is abandoned, the call still returns its result,
    every other cell that passes both tests is still in it, and every
    point in it lies within these bounds. *)
Theorem out_of_grid_point_is_skipped
    (g : Garbage) (dims : Z -> Dims) (confidance offsets instance : ptr)
    (thresh : Q) (h : Host) (i j : Z) :
  let dim := dims output_base_index in
  let feature := feature_of g dims confidance instance thresh h in
  let r := fst (generate_result g dims confidance offsets instance thresh h) in
  (degenerate_eps <= Qabs (feature0 feature i j) + Qabs (feature1 feature i j))%Q ->
  cell_point_x feature i j < 0 \/ d1 dim <= cell_point_x feature i j \/
  cell_point_y feature i j < 0 \/ d2 dim <= cell_point_y feature i j ->
  cell_body dim feature i j = None /\
  (forall kp, In kp (keypoints r) -> ~ (cell_i kp = i /\ cell_j kp = j)) /\
  (forall i' j' kp, 0 <= i' < d2 dim -> 0 <= j' < d1 dim ->
     cell_body dim feature i' j' = Some kp -> In kp (keypoints r)) /\
  (forall kp, In kp (keypoints r) ->
     0 <= point_x kp < d1 dim /\ 0 <= point_y kp < d2 dim).
Proof.
  intros dim feature r _ Hout.
  assert (Hskip : cell_body dim feature i j = None).
  { apply cell_body_outside. unfold W, H. lia. }
  assert (Er : keypoints r = cell_loop dim feature).
  { unfold r. rewrite generate_result_eq. reflexivity. }
  rewrite Er. split; [exact Hskip|]. split; [|split].
  - intros kp Hin [Hi Hj].
    apply in_cell_loop in Hin. destruct Hin as [i' [j' [_ [_ E]]]].
    destruct (cell_body_cell _ _ _ _ _ E) as [Ei [Ej _]].
    rewrite Ei in Hi. rewrite Ej in Hj. subst i' j'.
    rewrite Hskip in E. discriminate.
  - intros i' j' kp Hi Hj E. apply (proj2 (in_cell_loop _ _ _)). exists i', j'.
    unfold H, W. auto.
  - intros kp Hin.
    apply in_cell_loop in Hin. destruct Hin as [i' [j' [_ [_ E]]]].
    unfold cell_body in E.
    destruct (Qltb _ _); [discriminate|].
    destruct (_ || _) eqn:Hb; [discriminate|].
    injection E as <-. simpl.
    rewrite !orb_false_iff, !Z.ltb_ge in Hb.
    destruct Hb as [[[Hx0 Hx1] Hy0] Hy1].
    rewrite Z.geb_leb in Hx1, Hy1. apply Z.leb_gt in Hx1, Hy1.
    lia.
Qed.

(** Cell [(0, 0)] of [host_point_64]: the bytes read for it are [8] and
    [0], so it passes the degenerate test, and its point [(64, 0)] fails
    the bounds test at [d[1] = 64]. *)
Lemma out_of_grid_point_is_skipped_witness :
  let dim := pinet_dims output_base_index in
  let feature := feature_of zero_garbage pinet_dims confidance0 instance0
                   threshold_point host_point_64 in
  let r := fst (generate_result zero_garbage pinet_dims confidance0 offsets0 instance0
                  threshold_point host_point_64) in
  (degenerate_eps <= Qabs (feature0 feature 0 0) + Qabs (feature1 feature 0 0))%Q /\
  cell_point_x feature 0 0 = 64 /\ d1 dim = 64 /\
  cell_body dim feature 0 0 = None /\
  forall kp, In kp (keypoints r) -> ~ (cell_i kp = 0 /\ cell_j kp = 0).
Proof.
  assert (Hd : (degenerate_eps
                <= Qabs (feature0 (feature_of zero_garbage pinet_dims confidance0 instance0
                                     threshold_point host_point_64) 0 0)
                   + Qabs (feature1 (feature_of zero_garbage pinet_dims confidance0
                                       instance0 threshold_point host_point_64) 0 0))%Q)
    by (vm_compute; discriminate).
  assert (Hx : d1 (pinet_dims output_base_index)
               <= cell_point_x (feature_of zero_garbage pinet_dims confidance0 instance0
                                  threshold_point host_point_64) 0 0)
    by (vm_compute; discriminate).
  split; [exact Hd|].
  split; [vm_compute; reflexivity|].
  split; [reflexivity|].
  pose proof (out_of_grid_point_is_skipped zero_garbage pinet_dims confidance0 offsets0
                instance0 threshold_point host_point_64 0 0 Hd
                (or_intror (or_introl Hx))) as T.
  split; [exact (proj1 T) | exact (proj1 (proj2 T))].
Defined.

(** ** verifyOutput *)

(** What a call of [verifyOutput] comes to: the three assertions on the
    channel counts, then a result whose status is [true]. *)
Lemma verifyOutput_run g dims h :
  fst (verifyOutput g dims h) =
  if channels_ok dims then
    Returned (mkVerified true
      (fst (for_each (range (d2 (dims (output_base_index + 0)))) (fun i acc =>
              for_each (range (d1 (dims (output_base_index + 0)))) (fun j acc =>
                v <- load (ptr_add (mkPtr Confidance 0) i) ;;
                ret (acc ++ [v]))
              acc) [] h))
      (fst (generate_result g dims (mkPtr Confidance 0) (mkPtr Offsets 0)
              (mkPtr Instance 0) threshold_point h)))
  else AssertionFailed.
Proof.
  unfold verifyOutput, channels_ok.
  destruct (d0 (dims (output_base_index + 0)) =? 1); [|reflexivity].
  destruct (d0 (dims (output_base_index + 1)) =? 2); [|reflexivity].
  destruct (d0 (dims (output_base_index + 2)) =? 4); [|reflexivity].
  cbn [negb andb].
  rewrite bind_run.
  match goal with |- context [snd (for_each ?l ?b ?s h)] =>
    replace (snd (for_each l b s h)) with h
  end.
  - rewrite bind_run. reflexivity.
  - symmetry. apply (frame_for_each (range (d2 (dims (output_base_index + 0))))).
    intros i acc. apply frame_for_each. intros j acc'.
    apply frame_bind; auto with frame.
Qed.

(** C8, as the claim has it, fails: with the confidence output declared
    [1 x 64 x 32] and the offset output [2 x 32 x 64] the call returns with
    status [true]. *)
Lemma verifyOutput_accepts_mismatched_extents :
  ~ same_extents mismatched_dims /\
  exists v, fst (verifyOutput zero_garbage mismatched_dims zero_host) = Returned v /\
            status v = true.
Proof.
  split.
  - unfold same_extents. cbn. intros [E _]. discriminate.
  - rewrite verifyOutput_run.
    replace (channels_ok mismatched_dims) with true by reflexivity.
    eexists. split; reflexivity.
Qed.

(** C8, amended.  [verifyOutput] compares no spatial extents and has no
    failure of its own to report: it asserts the three channel counts
    (1, 2 and 4).  When they hold the call returns [true], whatever the
    spatial extents of the three outputs; when one does not, the assertion
    stops the program. *)
Theorem verifyOutput_checks_channel_counts_only
    (g : Garbage) (dims : Z -> Dims) (h : Host) :
  match fst (verifyOutput g dims h) with
  | Returned v => channels_ok dims = true /\ status v = true
  | AssertionFailed => channels_ok dims = false
  end.
Proof.
  rewrite verifyOutput_run.
  destruct (channels_ok dims); [split|]; reflexivity.
Qed.

(** ** The host buffers *)

(** Writing through a pointer is not a [frame] computation: the property
    below is one that a computation can fail. *)
Lemma store_is_not_frame : ~ frame (store confidance0 1%Q).
Proof.
  intros F. specialize (F zero_host).
  apply (f_equal (fun h => confidance_mem h 0)) in F.
  cbn in F. discriminate.
Qed.

(** C9.  When [generate_result] returns, and when [verifyOutput] does, the
    confidence, offset and embedding buffers hold what they held at the
    call: the code only reads through the three pointers. *)
Theorem host_buffers_are_only_read
    (g : Garbage) (dims : Z -> Dims) (confidance offsets instance : ptr)
    (thresh : Q) (h : Host) :
  snd (generate_result g dims confidance offsets instance thresh h) = h /\
  snd (verifyOutput g dims h) = h.
Proof.
  split.
  - apply frame_generate_result.
  - apply frame_verifyOutput.
Qed.

(** C10.  Two calls of [generate_result] that differ only in the contents
    of the offset buffer have the same result: the same logged mask and the
    same surviving cells with the same points. *)
Theorem result_does_not_depend_on_offsets
    (g : Garbage) (dims : Z -> Dims) (thresh : Q) (h : Host) (o : Z -> Q) :
  fst (generate_result g dims confidance0 offsets0 instance0 thresh (with_offsets h o))
  = fst (generate_result g dims confidance0 offsets0 instance0 thresh h).
Proof.
  apply off_blind_generate_result.
  - discriminate.
  - discriminate.
  - apply off_equiv_with_offsets.
Qed.

(** ** The points that are kept

    An iteration of the cell loop whose point has passed the bounds test
    has reached the end of the loop body: nothing is done with the point.
    The three statements below evaluate a call for the recorded dimensions
    on confident cells of the first column, whose points are kept. *)




(** * Further properties of the compiled code *)

(** ** Loops, continued *)

Lemma range_nonpos (n : Z) : n <= 0 -> range n = [].
Proof.
  intros Hn. unfold range. replace (Z.to_nat n) with 0%nat by lia. reflexivity.
Qed.

Lemma for_each_preserves {A St} (P : St -> Prop) (l : list A)
    (body : A -> St -> M St) (h : Host) :
  (forall a s, frame (body a s)) ->
  (forall a s, P s -> P (fst (body a s h))) ->
  forall s, P s -> P (fst (for_each l body s h)).
Proof.
  intros Hf Hstep. induction l as [|a l IH]; intros s Hs; simpl.
  - exact Hs.
  - rewrite bind_run, Hf. apply IH, Hstep, Hs.
Qed.


(** ** A grid without a confident cell *)





Lemma all_zero_new (r c esz : Z) : all_zero (Mat_new r c esz (fun _ => 0)).
Proof. intros a. reflexivity. Qed.








(** ** Where the surviving cells lie *)

(** X3.  A cell that survives the cell loop has a point whose coordinates
    are multiples of [resize_ratio], at least [resize_ratio] times the cell
    indices and below the extents of the grid: only cells of the first
    [H / resize_ratio] rows and [W / resize_ratio] columns can survive. *)
Theorem surviving_cells_lie_in_corner
    (g : Garbage) (dims : Z -> Dims) (confidance offsets instance : ptr)
    (thresh : Q) (h : Host) (kp : Keypoint) :
  let dim := dims output_base_index in
  In kp (keypoints (fst (generate_result g dims confidance offsets instance thresh h))) ->
  0 <= cell_i kp /\ 0 <= cell_j kp /\
  resize_ratio * cell_j kp <= point_x kp < W dim /\
  resize_ratio * cell_i kp <= point_y kp < H dim /\
  point_x kp mod resize_ratio = 0 /\ point_y kp mod resize_ratio = 0.
Proof.
  intros dim Hin. rewrite generate_result_eq in Hin. cbn [keypoints] in Hin.
  apply (proj1 (in_cell_loop _ _ _)) in Hin.
  destruct Hin as [i [j [Hi [Hj E]]]]. fold dim in Hi, Hj, E.
  destruct (cell_body_cell _ _ _ _ _ E) as [Ei [Ej [Ex Ey]]].
  unfold cell_body in E.
  destruct (Qltb _ _); [discriminate|].
  destruct (_ || _) eqn:Hb; [discriminate|].
  rewrite !orb_false_iff, !Z.ltb_ge in Hb.
  destruct Hb as [[[Hx0 Hx1] Hy0] Hy1].
  rewrite Z.geb_leb in Hx1, Hy1. apply Z.leb_gt in Hx1, Hy1.
  rewrite <- Ex in Hx0, Hx1. rewrite <- Ey in Hy0, Hy1.
  rewrite cell_point_x_eq in Ex. rewrite cell_point_y_eq in Ey.
  pose proof (byte_at_range (feature_of g dims confidance instance thresh h)
                (step (feature_of g dims confidance instance thresh h) * i + 3 * j + 0)) as B0.
  pose proof (byte_at_range (feature_of g dims confidance instance thresh h)
                (step (feature_of g dims confidance instance thresh h) * i + 3 * j + 1)) as B1.
  unfold at_Vec3b in Ex, Ey. unfold resize_ratio in *. unfold W, H in *.
  rewrite Ei, Ej.
  repeat split; try lia.
  - rewrite Ex. apply Z.mod_mul. lia.
  - rewrite Ey. apply Z.mod_mul. lia.
Qed.

Lemma surviving_cells_lie_in_corner_witness :
  let kp := mkKeypoint 0 0 8 0 in
  In kp (keypoints (fst (generate_result zero_garbage pinet_dims confidance0 offsets0
                           instance0 threshold_point host_cell_0_0))) /\
  resize_ratio * cell_j kp <= point_x kp < W (pinet_dims output_base_index).
Proof.
  assert (Hin : In (mkKeypoint 0 0 8 0)
            (keypoints (fst (generate_result zero_garbage pinet_dims confidance0 offsets0
                               instance0 threshold_point host_cell_0_0)))).
  { vm_compute. left. reflexivity. }
  split; [exact Hin|].
  exact (proj1 (proj2 (proj2
    (surviving_cells_lie_in_corner zero_garbage pinet_dims confidance0 offsets0
       instance0 threshold_point host_cell_0_0 (mkKeypoint 0 0 8 0) Hin)))).
Defined.

(** ** The order of the surviving cells *)

Lemma sorted_app {B} (R : B -> B -> Prop) (l1 l2 : list B) :
  StronglySorted R l1 -> StronglySorted R l2 ->
  (forall a b, In a l1 -> In b l2 -> R a b) ->
  StronglySorted R (l1 ++ l2).
Proof.
  intros H1 H2 H12. induction H1 as [|a l1 Hs IH Hall]; simpl.
  - exact H2.
  - constructor.
    + apply IH. intros x y Hx Hy. apply H12; [right; exact Hx | exact Hy].
    + apply Forall_app. split; [exact Hall|].
      apply Forall_forall. intros b Hb. apply H12; [left; reflexivity | exact Hb].
Qed.

Lemma sorted_flat_map {B} (R : B -> B -> Prop) (f : Z -> list B) (l : list Z) :
  StronglySorted Z.lt l ->
  (forall a, StronglySorted R (f a)) ->
  (forall a a' b b', a < a' -> In b (f a) -> In b' (f a') -> R b b') ->
  StronglySorted R (flat_map f l).
Proof.
  intros Hl Hf Hcross. induction Hl as [|a l Hs IH Hall]; simpl.
  - constructor.
  - apply sorted_app; [apply Hf | exact IH |].
    intros b b' Hb Hb'. apply in_flat_map in Hb'. destruct Hb' as [a' [Ha' Hb']].
    rewrite Forall_forall in Hall. apply (Hcross a a'); [apply Hall, Ha' | exact Hb | exact Hb'].
Qed.

Lemma range_sorted (n : Z) : StronglySorted Z.lt (range n).
Proof.
  unfold range. generalize 0%nat as a.
  induction (Z.to_nat n) as [|len IH]; intros a; simpl.
  - constructor.
  - constructor; [apply IH|].
    apply Forall_forall. intros k Hk. apply in_map_iff in Hk.
    destruct Hk as [x [<- Hx]]. apply in_seq in Hx. lia.
Qed.

(** X4.  The surviving cells are listed in raster order, row by row and
    within a row by increasing column, and no cell is listed twice. *)
Theorem surviving_cells_in_raster_order
    (g : Garbage) (dims : Z -> Dims) (confidance offsets instance : ptr)
    (thresh : Q) (h : Host) :
  StronglySorted cell_before
    (keypoints (fst (generate_result g dims confidance offsets instance thresh h))).
Proof.
  rewrite generate_result_eq. cbn [keypoints]. unfold cell_loop.
  set (dim := dims output_base_index).
  set (feature := feature_of g dims confidance instance thresh h).
  assert (Hcell : forall i j kp, In kp (option_list (cell_body dim feature i j)) ->
                    cell_i kp = i /\ cell_j kp = j).
  { intros i j kp Hin. destruct (cell_body dim feature i j) as [kp'|] eqn:E;
      [|contradiction].
    destruct Hin as [<-|[]]. destruct (cell_body_cell _ _ _ _ _ E) as [Ei [Ej _]]. auto. }
  apply sorted_flat_map.
  - apply range_sorted.
  - intros i. apply sorted_flat_map.
    + apply range_sorted.
    + intros j. destruct (cell_body dim feature i j); simpl; repeat constructor.
    + intros j j' b b' Hlt Hb Hb'.
      destruct (Hcell _ _ _ Hb) as [Ei Ej]. destruct (Hcell _ _ _ Hb') as [Ei' Ej'].
      right. lia.
  - intros i i' b b' Hlt Hb Hb'.
    apply in_flat_map in Hb. destruct Hb as [j [_ Hb]].
    apply in_flat_map in Hb'. destruct Hb' as [j' [_ Hb']].
    destruct (Hcell _ _ _ Hb) as [Ei _]. destruct (Hcell _ _ _ Hb') as [Ei' _].
    left. lia.
Qed.

(** ** The elements of the host buffers that matter *)

Lemma for_each_seq_rel {St} (body : Z -> St -> M St) (h h' : Host)
    (P : Z -> St -> Prop) :
  (forall a s, frame (body a s)) ->
  forall (len a : nat) (s : St),
    P (Z.of_nat a) s ->
    (forall k s, Z.of_nat a <= k < Z.of_nat (a + len) -> P k s ->
       fst (body k s h) = fst (body k s h') /\ P (k + 1) (fst (body k s h))) ->
    fst (for_each (map Z.of_nat (seq a len)) body s h)
    = fst (for_each (map Z.of_nat (seq a len)) body s h') /\
    P (Z.of_nat (a + len)) (fst (for_each (map Z.of_nat (seq a len)) body s h)).
Proof.
  intros Hf. induction len as [|len IH]; intros a s Hs Hstep; simpl.
  - rewrite Nat.add_0_r. split; [reflexivity | exact Hs].
  - rewrite !bind_run, !Hf.
    destruct (Hstep (Z.of_nat a) s ltac:(lia) Hs) as [E Hnext].
    rewrite <- E.
    replace (a + S len)%nat with (S a + len)%nat by lia.
    apply IH.
    + replace (Z.of_nat (S a)) with (Z.of_nat a + 1) by lia. exact Hnext.
    + intros k s' Hk. apply Hstep. lia.
Qed.

Lemma for_range_rel {St} (n : Z) (body : Z -> St -> M St) (h h' : Host)
    (P : Z -> St -> Prop) (s : St) :
  (forall a s, frame (body a s)) ->
  P 0 s ->
  (forall k s, 0 <= k < n -> P k s ->
     fst (body k s h) = fst (body k s h') /\ P (k + 1) (fst (body k s h))) ->
  fst (for_each (range n) body s h) = fst (for_each (range n) body s h') /\
  P (Z.max 0 n) (fst (for_each (range n) body s h)).
Proof.
  intros Hf Hs Hstep. destruct (Z.le_gt_cases 0 n) as [Hn|Hn].
  - rewrite Z.max_r by lia. unfold range.
    pose proof (for_each_seq_rel body h h' P Hf (Z.to_nat n) 0 s) as L.
    simpl in L. rewrite Z2Nat.id in L by exact Hn.
    apply L; [exact Hs | exact Hstep].
  - rewrite Z.max_l by lia. rewrite range_nonpos by lia.
    split; [reflexivity | exact Hs].
Qed.

Lemma ptr_add_add (p : ptr) (a b : Z) : ptr_add (ptr_add p a) b = ptr_add p (a + b).
Proof. unfold ptr_add. simpl. f_equal. lia. Qed.

(** A loop over a grid of [rows] by [cols] cells that loads through a
    pointer it advances by one per cell depends only on the [rows * cols]
    elements from the pointer on. *)
Lemma grid_walk_rel (rows cols : Z) (f : Z -> Z -> Mat -> Q -> Mat)
    (p0 : ptr) (m0 : Mat) (h h' : Host) :
  (forall r c, 0 <= r < rows -> 0 <= c < cols ->
     peek h (ptr_add p0 (r * cols + c)) = peek h' (ptr_add p0 (r * cols + c))) ->
  fst (for_each (range rows) (fun r st =>
         for_each (range cols) (fun c '(p, m) =>
           v <- load p ;; ret (ptr_add p 1, f r c m v)) st) (p0, m0) h)
  = fst (for_each (range rows) (fun r st =>
         for_each (range cols) (fun c '(p, m) =>
           v <- load p ;; ret (ptr_add p 1, f r c m v)) st) (p0, m0) h').
Proof.
  intros Hsame.
  apply (for_range_rel rows _ h h'
           (fun r (st : ptr * Mat) => fst st = ptr_add p0 (r * Z.max 0 cols))).
  - intros r st. apply (frame_walk _ (fun c _ m v => f r c m v)).
  - unfold ptr_add. destruct p0. simpl. f_equal. lia.
  - intros r st Hr Hp.
    destruct (for_range_rel cols
                (fun c '(p, m) => v <- load p ;; ret (ptr_add p 1, f r c m v)) h h'
                (fun c (st : ptr * Mat) => fst st = ptr_add p0 (r * Z.max 0 cols + c)) st)
      as [E Hend].
    + intros c [p m]. apply frame_bind; auto with frame.
    + rewrite Hp. f_equal. lia.
    + intros c [p m] Hc Hq. simpl in Hq. subst p. simpl. split.
      * replace (r * Z.max 0 cols + c) with (r * cols + c) by lia.
        rewrite (Hsame r c Hr Hc). reflexivity.
      * rewrite ptr_add_add. f_equal. lia.
    + split; [exact E|]. rewrite Hend. f_equal. lia.
Qed.

Lemma mask_loop_rel (dim : Dims) (thresh : Q) (mask : Mat) (h h' : Host) :
  (forall k, 0 <= k < d1 dim * d2 dim -> confidance_mem h k = confidance_mem h' k) ->
  fst (mask_loop dim thresh confidance0 mask h)
  = fst (mask_loop dim thresh confidance0 mask h').
Proof.
  intros Hsame. unfold mask_loop.
  apply (grid_walk_rel (d2 dim) (d1 dim)
           (fun i j m v => if Qgtb v thresh then set_at_int m i j 1 else m)).
  intros r c Hr Hc. unfold peek, ptr_add, confidance0. simpl.
  apply Hsame. nia.
Qed.

Lemma plane_loop_rel c width height mask (p0 : ptr) channel (h h' : Host) :
  (forall hh w, 0 <= hh < height -> 0 <= w < width ->
     peek h (ptr_add p0 (hh * width + w)) = peek h' (ptr_add p0 (hh * width + w))) ->
  fst (plane_loop c width height mask p0 channel h)
  = fst (plane_loop c width height mask p0 channel h').
Proof.
  intros Hsame. unfold plane_loop.
  apply (grid_walk_rel height width
           (fun hh w m v =>
              set_ptr_Vec3b m w hh c (to_uchar (v * inject_Z (at_int mask w hh))))).
  exact Hsame.
Qed.

Lemma chwDataToMat_rel raw n width height (src : ptr) mask (h h' : Host) :
  (forall k, plane_element n width height k ->
     peek h (ptr_add src k) = peek h' (ptr_add src k)) ->
  fst (chwDataToMat raw n width height src mask h)
  = fst (chwDataToMat raw n width height src mask h').
Proof.
  intros Hsame. unfold chwDataToMat. rewrite !bind_run. cbn [ret fst].
  f_equal.
  apply (for_range_rel n _ h h' (fun _ (_ : list Mat) => True)).
  - intros c channels.
    apply frame_bind; [apply frame_plane_loop | auto with frame].
  - exact I.
  - intros c channels Hc _. split; [|exact I].
    rewrite !bind_run, !frame_plane_loop. cbn [ret fst].
    rewrite (plane_loop_rel c width height mask
               (ptr_add src (width * height * 4 * c))
               (Mat_new width height 4 (raw c)) h h'); [reflexivity|].
    intros hh w Hh Hw. rewrite ptr_add_add. apply Hsame.
    exists c, hh, w. auto.
Qed.

(** X5.  The result of [generate_result] depends on the confidence output
    through its [W * H] elements, and on the embedding output only through
    the elements [chwDataToMat] loads: plane [c] is taken from element
    [4 * W * H * c] on, because the plane size is counted in bytes.  Of a
    four-plane embedding output the second, third and fourth plane, elements
    [W * H] to [4 * W * H - 1], are therefore never used. *)
Theorem result_depends_on_loaded_elements
    (g : Garbage) (dims : Z -> Dims) (thresh : Q) (h h' : Host) :
  let dim := dims output_base_index in
  let instance_dim := dims (output_base_index + 2) in
  (forall k, 0 <= k < d1 dim * d2 dim -> confidance_mem h k = confidance_mem h' k) ->
  (forall k, plane_element (d0 instance_dim) (d1 instance_dim) (d2 instance_dim) k ->
     instance_mem h k = instance_mem h' k) ->
  fst (generate_result g dims confidance0 offsets0 instance0 thresh h)
  = fst (generate_result g dims confidance0 offsets0 instance0 thresh h').
Proof.
  intros dim instance_dim Hconf Hinst.
  rewrite !generate_result_eq. fold dim. cbv zeta.
  assert (Emask : mask_of g dim confidance0 thresh h = mask_of g dim confidance0 thresh h').
  { unfold mask_of. rewrite (mask_loop_rel dim thresh _ h h' Hconf). reflexivity. }
  assert (Efeat : feature_of g dims confidance0 instance0 thresh h
                  = feature_of g dims confidance0 instance0 thresh h').
  { unfold feature_of. fold dim instance_dim. rewrite Emask.
    apply chwDataToMat_rel. intros k Hk.
    unfold peek, ptr_add, instance0. simpl. apply Hinst, Hk. }
  rewrite Emask, Efeat. reflexivity.
Qed.

Lemma result_depends_on_loaded_elements_witness :
  instance_mem host_cell_0_0 2048 <> instance_mem host_other_channel 2048 /\
  fst (generate_result zero_garbage pinet_dims confidance0 offsets0 instance0
         threshold_point host_cell_0_0)
  = fst (generate_result zero_garbage pinet_dims confidance0 offsets0 instance0
           threshold_point host_other_channel).
Proof.
  split; [discriminate|].
  apply (result_depends_on_loaded_elements zero_garbage pinet_dims threshold_point
           host_cell_0_0 host_other_channel).
  - intros k _. reflexivity.
  - intros k [c [hh [w [Hc [Hh [Hw Ek]]]]]].
    change (d1 (pinet_dims (output_base_index + 2))) with 64 in *.
    change (d2 (pinet_dims (output_base_index + 2))) with 32 in *.
    change (d0 (pinet_dims (output_base_index + 2))) with 4 in *.
    unfold host_other_channel. cbn [instance_mem].
    replace (k =? 2048) with false; [reflexivity|].
    symmetry. apply Z.eqb_neq. lia.
Defined.

(** ** The mask, word by word *)

(** X2.  For the recorded dimensions ([1 x 64 x 32]) two cells [(i, j)] and
    [(i', j')] with [8 * i + j = 8 * i' + j'] are the same word of the mask.
    A cell above the threshold reads [1]; a cell reads [1] exactly when one
    of the cells of its word is above the threshold, and [0] otherwise; and
    the cells of one word read the same. *)
Theorem mask_reads_by_word (g : Garbage) (thresh : Q) (h : Host) (i j : Z) :
  0 <= i < 32 -> 0 <= j < 64 ->
  let mask := mask_of g (pinet_dims output_base_index) confidance0 thresh h in
  (above h thresh i j -> at_int mask i j = 1) /\
  (at_int mask i j = 1 <->
   exists i' j', 0 <= i' < 32 /\ 0 <= j' < 64 /\ 8 * i' + j' = 8 * i + j /\
                 above h thresh i' j') /\
  (at_int mask i j = 0 \/ at_int mask i j = 1) /\
  (forall i' j', 8 * i' + j' = 8 * i + j -> at_int mask i' j' = at_int mask i j).
Proof.
  intros Hi Hj mask.
  destruct (mask_cell_shares_word g thresh h i j Hi Hj) as [Hiff H01].
  fold mask in Hiff, H01.
  split; [|split; [exact Hiff | split; [exact H01|]]].
  - intros Hab. apply Hiff. exists i, j. auto.
  - intros i' j' E. destruct (mask_words g thresh h) as [Hs _]. fold mask in Hs.
    unfold at_int, at_int_offset. rewrite Hs. f_equal. lia.
Qed.

Lemma mask_reads_by_word_witness :
  0 <= 1 < 32 /\ 0 <= 0 < 64 /\
  let mask := mask_of zero_garbage (pinet_dims output_base_index) confidance0
                threshold_point host_cell_0_8 in
  (at_int mask 1 0 = 1 <->
   exists i' j', 0 <= i' < 32 /\ 0 <= j' < 64 /\ 8 * i' + j' = 8 * 1 + 0 /\
                 above host_cell_0_8 threshold_point i' j').
Proof.
  assert (Hi : 0 <= 1 < 32) by lia.
  assert (Hj : 0 <= 0 < 64) by lia.
  split; [exact Hi|]. split; [exact Hj|].
  exact (proj1 (proj2 (mask_reads_by_word zero_garbage threshold_point host_cell_0_8
                         1 0 Hi Hj))).
Defined.

(** ** What [verifyOutput] logs *)

Lemma log_row (l : list Z) (p : ptr) (acc : list Q) (h : Host) :
  fst (for_each l (fun (_ : Z) acc => v <- load p ;; ret (acc ++ [v])) acc h)
  = acc ++ repeat (peek h p) (length l).
Proof.
  revert acc. induction l as [|j l IH]; intros acc; simpl.
  - rewrite app_nil_r. reflexivity.
  - rewrite bind_run. cbn [load fst snd]. rewrite bind_run. cbn [ret fst snd].
    rewrite IH, <- app_assoc. reflexivity.
Qed.

Lemma log_rows (rows cols : list Z) (acc : list Q) (h : Host) :
  fst (for_each rows (fun i acc =>
         for_each cols (fun (_ : Z) acc =>
           v <- load (ptr_add (mkPtr Confidance 0) i) ;; ret (acc ++ [v])) acc) acc h)
  = acc ++ flat_map (fun i => repeat (confidance_mem h i) (length cols)) rows.
Proof.
  revert acc. induction rows as [|i rows IH]; intros acc; simpl.
  - rewrite app_nil_r. reflexivity.
  - rewrite bind_run.
    replace (snd (for_each cols
                    (fun (_ : Z) acc0 =>
                       v <- load (ptr_add (mkPtr Confidance 0) i) ;; ret (acc0 ++ [v]))
                    acc h)) with h.
    + rewrite IH, log_row, <- app_assoc. reflexivity.
    + symmetry. apply (frame_for_each cols). intros j acc'.
      apply frame_bind; auto with frame.
Qed.

(** X6.  The confidences [verifyOutput] logs are not those of the grid:
    for each of the [d[2]] rows [i] it logs element [i] of the confidence
    output, [d[1]] times.  Only the first [d[2]] elements of the output ever
    reach the log. *)
Theorem verifyOutput_logs_one_element_per_row
    (g : Garbage) (dims : Z -> Dims) (h : Host) :
  channels_ok dims = true ->
  exists v,
    fst (verifyOutput g dims h) = Returned v /\
    confidance_log v =
      flat_map (fun i => repeat (confidance_mem h i)
                           (Z.to_nat (d1 (dims (output_base_index + 0)))))
               (range (d2 (dims (output_base_index + 0)))).
Proof.
  intros Hok. rewrite verifyOutput_run, Hok.
  eexists. split; [reflexivity|]. cbn [confidance_log].
  rewrite log_rows. cbn [app]. f_equal.
  unfold range. rewrite length_map, length_seq. reflexivity.
Qed.

Lemma verifyOutput_logs_one_element_per_row_witness :
  channels_ok pinet_dims = true /\
  exists v,
    fst (verifyOutput zero_garbage pinet_dims host_cell_0_8) = Returned v /\
    confidance_log v =
      flat_map (fun i => repeat (confidance_mem host_cell_0_8 i) (Z.to_nat 64)) (range 32).
Proof.
  assert (Hok : channels_ok pinet_dims = true) by reflexivity.
  split; [exact Hok|].
  exact (verifyOutput_logs_one_element_per_row zero_garbage pinet_dims host_cell_0_8 Hok).
Defined.

(** ** processInput *)

Lemma for_range_fold_inv {St} (n : Z) (body : Z -> St -> St) (P : Z -> St -> Prop) (s : St) :
  0 <= n ->
  P 0 s ->
  (forall k s, 0 <= k < n -> P k s -> P (k + 1) (body k s)) ->
  P n (for_range n body s).
Proof.
  intros Hn Hs Hstep. unfold for_range, range.
  assert (L : forall (len a : nat) (s : St),
             P (Z.of_nat a) s ->
             (forall k s, Z.of_nat a <= k < Z.of_nat (a + len) -> P k s ->
                          P (k + 1) (body k s)) ->
             P (Z.of_nat (a + len))
               (fold_left (fun s k => body k s) (map Z.of_nat (seq a len)) s)).
  { induction len as [|len IH]; intros a s0 Hs0 Hst; simpl.
    - rewrite Nat.add_0_r. exact Hs0.
    - replace (a + S len)%nat with (S a + len)%nat by lia. apply IH.
      + replace (Z.of_nat (S a)) with (Z.of_nat a + 1) by lia.
        apply Hst; [lia | exact Hs0].
      + intros k s' Hk. apply Hst. lia. }
  pose proof (L (Z.to_nat n) 0%nat s) as L0. simpl in L0.
  rewrite Z2Nat.id in L0 by exact Hn. apply L0; [exact Hs | exact Hstep].
Qed.

Lemma fill_row_spec (image : Mat) (c i inputW b : Z) (old : Z -> Q) :
  0 <= inputW ->
  fst (fill_row image c i inputW (b, old)) = b + inputW /\
  (forall j, 0 <= j < inputW ->
     snd (fill_row image c i inputW (b, old)) (b + j) = pixel image c i j) /\
  (forall k, k < b \/ b + inputW <= k ->
     snd (fill_row image c i inputW (b, old)) k = old k).
Proof.
  intros HW. unfold fill_row. cbn [fst snd].
  pose (P := fun (j : Z) (st : Z * (Z -> Q) * Z) =>
               fst (fst st) = b + j /\
               snd st = step image * i + channels image * j /\
               (forall j', 0 <= j' < j -> snd (fst st) (b + j') = pixel image c i j') /\
               (forall k, k < b \/ b + j <= k -> snd (fst st) k = old k)).
  assert (Hfin : P inputW
            (for_range inputW
               (fun j '(host_index, hostDataBuffer, data) =>
                  (host_index + 1,
                   upd hostDataBuffer host_index
                     (float_div (inject_Z (byte_at image (data + c))) 255),
                   data + channels image))
               (b, old, step image * i))).
  { apply for_range_fold_inv; [exact HW | |].
    - unfold P. cbn [fst snd]. repeat split; try lia.
    - intros j [[hi bf] dt] Hj [Hhi [Hdt [Hdone Hrest]]]. cbn [fst snd] in *.
      subst hi dt. unfold P. cbn [fst snd]. repeat split; try lia.
      + intros j' Hj'. unfold upd.
        destruct (b + j' =? b + j) eqn:E.
        * apply Z.eqb_eq in E. replace j' with j by lia.
          reflexivity.
        * apply Z.eqb_neq in E. apply Hdone. lia.
      + intros k Hk. unfold upd.
        replace (k =? b + j) with false by (symmetry; apply Z.eqb_neq; lia).
        apply Hrest. lia. }
  destruct (for_range inputW _ (b, old, step image * i)) as [[hi bf] dt].
  destruct Hfin as [Hhi [_ [Hdone Hrest]]]. cbn [fst snd] in *.
  repeat split; assumption.
Qed.

Lemma fill_plane_spec (image : Mat) (c inputH inputW b : Z) (old : Z -> Q) :
  0 <= inputH -> 0 <= inputW ->
  let st := for_range inputH (fun i st => fill_row image c i inputW st) (b, old) in
  fst st = b + inputH * inputW /\
  filled b inputH inputW (pixel image c) old (snd st).
Proof.
  intros HH HW.
  apply (for_range_fold_inv inputH (fun i st => fill_row image c i inputW st)
           (fun i st => fst st = b + i * inputW /\
                        filled b i inputW (pixel image c) old (snd st))).
  - exact HH.
  - split; [cbn; lia|]. split; [intros r c' Hr; lia | intros k _; reflexivity].
  - intros i [hi bf] Hi [Hhi [Hdone Hrest]]. cbn [fst snd] in *. subst hi.
    destruct (fill_row_spec image c i inputW (b + i * inputW) bf HW)
      as [Hnext [Hrow Hkeep]].
    split; [rewrite Hnext; lia|]. split.
    + intros r c' Hr Hc'. destruct (Z.eq_dec r i) as [->|Hne].
      * replace (b + (i * inputW + c')) with (b + i * inputW + c') by lia.
        apply Hrow, Hc'.
      * rewrite Hkeep by nia. apply Hdone; lia.
    + intros k Hk. rewrite Hkeep by nia. apply Hrest. nia.
Qed.

(** What the call leaves in the buffer, plane by plane. *)
Lemma processInput_fills (mInputDims : Dims) (image : Mat) (old : Z -> Q) :
  0 <= d0 mInputDims -> 0 <= d1 mInputDims -> 0 <= d2 mInputDims ->
  fst (processInput mInputDims image old) = true /\
  (forall c i j, 0 <= c < d0 mInputDims -> 0 <= i < d2 mInputDims ->
                 0 <= j < d1 mInputDims ->
     snd (processInput mInputDims image old)
         (c * (d2 mInputDims * d1 mInputDims) + i * d1 mInputDims + j)
     = pixel image c i j) /\
  (forall k, k < 0 \/ d0 mInputDims * (d2 mInputDims * d1 mInputDims) <= k ->
     snd (processInput mInputDims image old) k = old k).
Proof.
  intros HC HW HH. unfold processInput.
  set (C := d0 mInputDims) in *. set (Wd := d1 mInputDims) in *.
  set (Hg := d2 mInputDims) in *.
  pose (P := fun (c : Z) (st : Z * (Z -> Q)) =>
               fst st = c * (Hg * Wd) /\
               (forall c' i j, 0 <= c' < c -> 0 <= i < Hg -> 0 <= j < Wd ->
                  snd st (c' * (Hg * Wd) + i * Wd + j) = pixel image c' i j) /\
               (forall k, k < 0 \/ c * (Hg * Wd) <= k -> snd st k = old k)).
  assert (Hfin : P C (for_range C
                        (fun c st => for_range Hg (fun i st => fill_row image c i Wd st) st)
                        (0, old))).
  { apply for_range_fold_inv; [exact HC | |].
    - unfold P. cbn [fst snd]. repeat split; try lia.
    - intros c [hi bf] Hc [Hhi [Hdone Hrest]]. cbn [fst snd] in *. subst hi.
      destruct (fill_plane_spec image c Hg Wd (c * (Hg * Wd)) bf HH HW)
        as [Hnext [Hnew Hkeep]].
      unfold P. split; [rewrite Hnext; lia|]. split.
      + intros c' i j Hc' Hi Hj. destruct (Z.eq_dec c' c) as [->|Hne].
        * replace (c * (Hg * Wd) + i * Wd + j) with (c * (Hg * Wd) + (i * Wd + j)) by lia.
          apply Hnew; assumption.
        * rewrite Hkeep by nia. apply Hdone; lia.
      + intros k Hk. rewrite Hkeep by nia. apply Hrest. nia. }
  destruct (for_range C _ (0, old)) as [hi bf].
  destruct Hfin as [_ [Hdone Hrest]]. cbn [fst snd] in *.
  split; [reflexivity|]. split; [exact Hdone | exact Hrest].
Qed.

(** X7.  [processInput] turns the interleaved image into a planar tensor:
    element [c * H * W + i * W + j] of the host buffer receives
    [float(b) / 255.0f], the binary32 quotient by 255 of the byte [b] of
    channel [c] of pixel [(i, j)], for [c] below [d[0]], [i] below [d[2]]
    and [j] below [d[1]].  Elements outside the first [d[0] * d[2] * d[1]]
    keep their value, and the call returns [true]. *)
Theorem processInput_planar_layout (mInputDims : Dims) (image : Mat) (old : Z -> Q) :
  0 <= d0 mInputDims -> 0 <= d1 mInputDims -> 0 <= d2 mInputDims ->
  fst (processInput mInputDims image old) = true /\
  (forall c i j, 0 <= c < d0 mInputDims -> 0 <= i < d2 mInputDims ->
                 0 <= j < d1 mInputDims ->
     snd (processInput mInputDims image old)
         (c * (d2 mInputDims * d1 mInputDims) + i * d1 mInputDims + j)
     = pixel image c i j) /\
  (forall k, k < 0 \/ d0 mInputDims * (d2 mInputDims * d1 mInputDims) <= k ->
     snd (processInput mInputDims image old) k = old k).
Proof. apply processInput_fills. Qed.

Lemma processInput_planar_layout_witness :
  0 <= d0 tiny_dims /\ 0 <= d1 tiny_dims /\ 0 <= d2 tiny_dims /\
  snd (processInput tiny_dims tiny_image (fun _ => 0%Q)) (2 * (2 * 2) + 1 * 2 + 1)
  = pixel tiny_image 2 1 1 /\
  pixel tiny_image 2 1 1 = (11579569 # 268435456)%Q.
Proof.
  assert (H0 : 0 <= d0 tiny_dims) by (cbn; lia).
  assert (H1 : 0 <= d1 tiny_dims) by (cbn; lia).
  assert (H2 : 0 <= d2 tiny_dims) by (cbn; lia).
  split; [exact H0|]. split; [exact H1|]. split; [exact H2|].
  assert (Hc : 0 <= 2 < d0 tiny_dims) by (cbn; lia).
  assert (Hi : 0 <= 1 < d2 tiny_dims) by (cbn; lia).
  assert (Hj : 0 <= 1 < d1 tiny_dims) by (cbn; lia).
  split; [|vm_compute; reflexivity].
  exact (proj1 (proj2 (processInput_planar_layout tiny_dims tiny_image (fun _ => 0%Q)
                         H0 H1 H2)) 2 1 1 Hc Hi Hj).
Defined.

(** The quotient of a byte by [255.0f] lies between 0 and 1. *)
Lemma float_div_byte_range (b : Z) :
  0 <= b < 256 -> (0 <= float_div (inject_Z b) 255 <= 1)%Q.
Proof.
  intros Hb.
  assert (A : forallb (fun b => Qle_bool 0 (float_div (inject_Z b) 255)
                                && Qle_bool (float_div (inject_Z b) 255) 1)
                      (range 256) = true) by (vm_compute; reflexivity).
  rewrite forallb_forall in A.
  specialize (A b (proj2 (in_range 256 b) Hb)).
  apply andb_true_iff in A. destruct A as [A0 A1].
  split; apply Qle_bool_iff; assumption.
Qed.

Lemma pixel_range (image : Mat) (c i j : Z) : (0 <= pixel image c i j <= 1)%Q.
Proof. unfold pixel. apply float_div_byte_range, byte_at_range. Qed.

(** X8.  After [processInput] every element of the input tensor, the
    first [d[0] * d[2] * d[1]] elements of the host buffer, lies between 0
    and 1. *)
Theorem processInput_normalises (mInputDims : Dims) (image : Mat) (old : Z -> Q) (k : Z) :
  0 <= d0 mInputDims -> 0 <= d1 mInputDims -> 0 <= d2 mInputDims ->
  0 <= k < d0 mInputDims * (d2 mInputDims * d1 mInputDims) ->
  (0 <= snd (processInput mInputDims image old) k <= 1)%Q.
Proof.
  intros HC HW HH Hk.
  destruct (processInput_fills mInputDims image old HC HW HH) as [_ [Hval _]].
  set (C := d0 mInputDims) in *. set (Wd := d1 mInputDims) in *.
  set (Hg := d2 mInputDims) in *.
  assert (HWpos : 0 < Wd) by nia.
  assert (HHpos : 0 < Hg) by nia.
  assert (Hplane : 0 < Hg * Wd) by nia.
  pose proof (Z.div_mod k (Hg * Wd) ltac:(lia)) as Ek.
  pose proof (Z.mod_pos_bound k (Hg * Wd) Hplane) as Hr.
  pose proof (Z.div_mod (k mod (Hg * Wd)) Wd ltac:(lia)) as Er.
  pose proof (Z.mod_pos_bound (k mod (Hg * Wd)) Wd HWpos) as Hj.
  assert (Hc : 0 <= k / (Hg * Wd) < C).
  { split; [apply Z.div_pos; lia|].
    apply Z.div_lt_upper_bound; [exact Hplane | nia]. }
  assert (Hi : 0 <= k mod (Hg * Wd) / Wd < Hg).
  { split; [apply Z.div_pos; lia|].
    apply Z.div_lt_upper_bound; [exact HWpos | nia]. }
  replace k with (k / (Hg * Wd) * (Hg * Wd) + k mod (Hg * Wd) / Wd * Wd
                  + (k mod (Hg * Wd)) mod Wd) by nia.
  rewrite Hval by assumption.
  apply pixel_range.
Qed.

Lemma processInput_normalises_witness :
  0 <= d0 tiny_dims /\ 0 <= d1 tiny_dims /\ 0 <= d2 tiny_dims /\
  0 <= 11 < d0 tiny_dims * (d2 tiny_dims * d1 tiny_dims) /\
  (0 <= snd (processInput tiny_dims tiny_image (fun _ => 0%Q)) 11%Z <= 1)%Q.
Proof.
  assert (H0 : 0 <= d0 tiny_dims) by (cbn; lia).
  assert (H1 : 0 <= d1 tiny_dims) by (cbn; lia).
  assert (H2 : 0 <= d2 tiny_dims) by (cbn; lia).
  assert (Hk : 0 <= 11 < d0 tiny_dims * (d2 tiny_dims * d1 tiny_dims)) by (cbn; lia).
  split; [exact H0|]. split; [exact H1|]. split; [exact H2|]. split; [exact Hk|].
  exact (processInput_normalises tiny_dims tiny_image (fun _ => 0%Q) 11 H0 H1 H2 Hk).
Defined.

(** ** What the cell loop reads in the first column *)

Lemma chwDataToMat_planes raw n width height src mask h :
  fst (chwDataToMat raw n width height src mask h)
  = merge (map (plane_of raw width height src mask h) (range n)) n (raw n).
Proof.
  unfold chwDataToMat. rewrite bind_run. cbn [ret fst]. f_equal.
  assert (L : forall l acc,
             fst (for_each l
                    (fun c channels =>
                       st <- plane_loop c width height mask
                               (ptr_add src (width * height * 4 * c))
                               (Mat_new width height 4 (raw c)) ;;
                       ret (channels ++ [snd st])) acc h)
             = acc ++ map (plane_of raw width height src mask h) l).
  { induction l as [|c l IH]; intros acc; simpl.
    - rewrite app_nil_r. reflexivity.
    - rewrite bind_run.
      match goal with |- context [snd (bind ?m ?k h)] =>
        replace (snd (bind m k h)) with h
      end.
      + rewrite IH, bind_run. cbn [ret fst]. rewrite <- app_assoc. reflexivity.
      + symmetry.
        apply (frame_bind (plane_loop c width height mask
                             (ptr_add src (width * height * 4 * c))
                             (Mat_new width height 4 (raw c))));
          [apply frame_plane_loop | auto with frame]. }
  apply (L (range n) []).
Qed.

Lemma to_uchar_byte (q : Q) : to_uchar q mod 256 = to_uchar q.
Proof. unfold to_uchar. apply Z.mod_mod. lia. Qed.

Lemma plane0_written_ext mask p0 h (done done' : Z -> Z -> Prop) m :
  (forall hh' w', done' hh' w' -> done hh' w') ->
  plane0_written mask p0 h done m -> plane0_written mask p0 h done' m.
Proof.
  intros Hsub [Hs [He Hb]]. split; [exact Hs|]. split; [exact He|].
  intros hh' w' Hd. apply Hb, Hsub, Hd.
Qed.

(** One cell of the plane loop, for plane 0 of a 64 by 32 plane. *)
Lemma plane0_written_cell mask p0 h hh w m :
  0 <= hh < 32 -> 0 <= w < 64 ->
  plane0_written mask p0 h (plane_done hh w) m ->
  plane0_written mask p0 h (plane_done hh (w + 1))
    (set_ptr_Vec3b m w hh 0
       (to_uchar (peek h (ptr_add p0 (hh * 64 + w)) * inject_Z (at_int mask w hh)))).
Proof.
  intros Hh Hw [Hs [He Hb]].
  split; [exact Hs|]. split; [exact He|].
  intros hh' w' Hd. unfold set_ptr_Vec3b. rewrite Hs, He.
  rewrite !byte_at_set_byte.
  destruct (Z.eq_dec w' w) as [->|Hnw].
  - destruct (Z.eq_dec hh' hh) as [->|Hnh].
    + eqb_lia. split; [apply to_uchar_byte | reflexivity].
    + assert (Hold : plane_done hh w hh' w) by (unfold plane_done in *; lia).
      unfold plane_done in Hd. eqb_lia. apply Hb, Hold.
  - assert (Hold : plane_done hh w hh' w') by (unfold plane_done in *; lia).
    destruct Hold as [Hw' [Hh' Hlt]]. eqb_lia.
    apply Hb. unfold plane_done. lia.
Qed.

Lemma plane0_bytes (raw0 : Z -> Z) (mask : Mat) (p0 : ptr) (h : Host) :
  plane0_written mask p0 h (plane_done 32 0)
    (snd (fst (plane_loop 0 64 32 mask p0 (Mat_new 64 32 4 raw0) h))).
Proof.
  unfold plane_loop.
  pose (P := fun (hh : Z) (st : ptr * Mat) =>
               fst st = ptr_add p0 (hh * 64) /\
               plane0_written mask p0 h (plane_done hh 0) (snd st)).
  assert (Hfin : P 32 (fst (for_each (range 32)
            (fun hh st => for_each (range 64)
               (fun w '(channel_data, channel) =>
                  v <- load channel_data ;;
                  ret (ptr_add channel_data 1,
                       set_ptr_Vec3b channel w hh 0
                         (to_uchar (v * inject_Z (at_int mask w hh))))) st)
            (p0, Mat_new 64 32 4 raw0) h))).
  { apply for_range_inv.
    - intros hh st.
      apply (frame_walk _ (fun w _ m v =>
               set_ptr_Vec3b m w hh 0 (to_uchar (v * inject_Z (at_int mask w hh))))).
    - lia.
    - split.
      + unfold ptr_add. destruct p0. simpl. f_equal. lia.
      + split; [reflexivity|]. split; [reflexivity|].
        intros hh' w' Hd. unfold plane_done in Hd. lia.
    - intros hh st Hh [Hp Hwr].
      pose (R := fun (w : Z) (st : ptr * Mat) =>
                   fst st = ptr_add p0 (hh * 64 + w) /\
                   plane0_written mask p0 h (plane_done hh w) (snd st)).
      assert (Hrow : R 64 (fst (for_each (range 64)
                (fun w '(channel_data, channel) =>
                   v <- load channel_data ;;
                   ret (ptr_add channel_data 1,
                        set_ptr_Vec3b channel w hh 0
                          (to_uchar (v * inject_Z (at_int mask w hh))))) st h))).
      { apply for_range_inv.
        - intros w [p m]. apply frame_bind; auto with frame.
        - lia.
        - split; [rewrite Hp; f_equal; lia | exact Hwr].
        - intros w [p m] Hw [Hq Hwq]. simpl in Hq. subst p.
          split.
          + simpl. rewrite ptr_add_add. f_equal. lia.
          + simpl. apply plane0_written_cell; assumption. }
      destruct Hrow as [Hp' Hw']. split.
      + rewrite Hp'. f_equal. lia.
      + apply (plane0_written_ext mask p0 h (plane_done hh 64)); [|exact Hw'].
        unfold plane_done. intros hh' w'. lia. }
  exact (proj2 Hfin).
Qed.

Lemma plane_loop_header c width height mask p0 channel h :
  let m := snd (fst (plane_loop c width height mask p0 channel h)) in
  rows m = rows channel /\ cols m = cols channel /\ elemSize m = elemSize channel.
Proof.
  unfold plane_loop.
  apply (for_each_preserves
           (fun st : ptr * Mat =>
              rows (snd st) = rows channel /\ cols (snd st) = cols channel /\
              elemSize (snd st) = elemSize channel)); [| |auto].
  - intros hh st.
    apply (frame_walk _ (fun w _ m v =>
             set_ptr_Vec3b m w hh c (to_uchar (v * inject_Z (at_int mask w hh))))).
  - intros hh st Hst.
    apply (for_each_preserves
             (fun st : ptr * Mat =>
                rows (snd st) = rows channel /\ cols (snd st) = cols channel /\
                elemSize (snd st) = elemSize channel)); [| |exact Hst].
    + intros w [p m]. apply frame_bind; auto with frame.
    + intros w [p m] Hm. exact Hm.
Qed.

Lemma plane_of_header raw width height src mask h c :
  rows (plane_of raw width height src mask h c) = width /\
  cols (plane_of raw width height src mask h c) = height /\
  elemSize (plane_of raw width height src mask h c) = 4.
Proof. unfold plane_of. apply plane_loop_header. Qed.

(** X12.  For the recorded dimensions the two values the cell loop reads
    for cell [(i, 0)] are the following.  [feature0] is the [uchar]
    conversion of element [i] of the embedding output, the first channel of
    cell [(0, i)], times the mask word read at [(i, 0)]; [feature1] is zero.
    The point of the cell is therefore eight times that byte, and
    [8 * i]. *)
Theorem first_column_reads_first_row (g : Garbage) (thresh : Q) (h : Host) (i : Z) :
  0 <= i < 32 ->
  let mask := mask_of g (pinet_dims output_base_index) confidance0 thresh h in
  let feature := feature_of g pinet_dims confidance0 instance0 thresh h in
  at_Vec3b feature i 0 0
  = to_uchar (instance_mem h i * inject_Z (at_int mask i 0)) /\
  at_Vec3b feature i 0 1 = 0 /\
  cell_point_x feature i 0
  = resize_ratio * to_uchar (instance_mem h i * inject_Z (at_int mask i 0)) /\
  cell_point_y feature i 0 = resize_ratio * i.
Proof.
  intros Hi mask feature.
  assert (Ef : feature = merge (map (plane_of (junk_feature g) 64 32 instance0 mask h)
                                    [0; 1; 2; 3]) 4 (junk_feature g 4)).
  { unfold feature, feature_of. apply chwDataToMat_planes. }
  destruct (plane0_bytes (junk_feature g 0) mask (ptr_add instance0 (64 * 32 * 4 * 0)) h)
    as [Hs [He Hb]].
  destruct (Hb 0 i ltac:(unfold plane_done; lia)) as [B0 B1].
  destruct (plane_of_header (junk_feature g) 64 32 instance0 mask h 0) as [Hr [Hc _]].
  assert (Hstep : step feature = 512).
  { rewrite Ef. unfold step, merge. cbn [cols elemSize map nth].
    rewrite Hc. reflexivity. }
  assert (Hread : forall b, 0 <= b < 2 ->
            byte_at feature (512 * i + b)
            = byte_at (plane_of (junk_feature g) 64 32 instance0 mask h 0)
                      (128 * i + 4 * 0 + b)).
  { intros b Hb01. rewrite Ef. unfold byte_at at 1. unfold merge.
    cbn [data map nth rows cols]. rewrite Hr, Hc.
    replace (512 * i + b) with (32 * i * 16 + b) by lia.
    replace ((0 <=? 32 * i * 16 + b) && (32 * i * 16 + b <? 64 * 32 * (4 * 4))) with true
      by (symmetry; apply andb_true_iff; split; [apply Z.leb_le | apply Z.ltb_lt]; lia).
    change (4 * 4) with 16.
    replace ((32 * i * 16 + b) / 16) with (32 * i)
      by (apply (Z.div_unique _ 16 (32 * i) b); lia).
    replace ((32 * i * 16 + b) mod 16) with b
      by (apply (Z.mod_unique _ 16 (32 * i) b); lia).
    replace ((32 * i * 16 + b) mod 4) with b
      by (apply (Z.mod_unique _ 4 (128 * i) b); lia).
    replace (Z.to_nat (b / 4)) with 0%nat
      by (rewrite Z.div_small by lia; reflexivity).
    cbn [nth].
    replace (4 * (32 * i) + b) with (128 * i + 4 * 0 + b) by lia.
    unfold byte_at. apply Z.mod_mod. lia. }
  assert (E0 : at_Vec3b feature i 0 0
               = to_uchar (instance_mem h i * inject_Z (at_int mask i 0))).
  { unfold at_Vec3b. rewrite Hstep.
    replace (512 * i + 3 * 0 + 0) with (512 * i + 0) by lia.
    rewrite Hread by lia. unfold plane_of.
    replace (128 * i + 4 * 0 + 0) with (128 * i + 4 * 0) by lia.
    rewrite B0. unfold peek, ptr_add, instance0. simpl.
    first [reflexivity | repeat f_equal; lia]. }
  assert (E1 : at_Vec3b feature i 0 1 = 0).
  { unfold at_Vec3b. rewrite Hstep.
    replace (512 * i + 3 * 0 + 1) with (512 * i + 1) by lia.
    rewrite Hread by lia. unfold plane_of. exact B1. }
  split; [exact E0|]. split; [exact E1|]. split.
  - rewrite cell_point_x_eq, E0. lia.
  - rewrite cell_point_y_eq, E1. lia.
Qed.

Lemma first_column_reads_first_row_witness :
  0 <= 1 < 32 /\
  cell_point_y (feature_of zero_garbage pinet_dims confidance0 instance0 threshold_point
                  host_cell_0_0) 1 0
  = resize_ratio * 1.
Proof.
  assert (Hi : 0 <= 1 < 32) by lia.
  split; [exact Hi|].
  exact (proj2 (proj2 (proj2 (first_column_reads_first_row zero_garbage threshold_point
                                host_cell_0_0 1 Hi)))).
Defined.

(** ** The shape of the matrix [chwDataToMat] returns *)

Lemma range_pos (n : Z) : 0 < n -> exists l, range n = 0 :: l.
Proof.
  intros Hn. unfold range. destruct (Z.to_nat n) as [|m] eqn:E; [lia|].
  simpl. eexists. reflexivity.
Qed.

(** X13.  Given at least one plane, [chwDataToMat] returns a matrix of
    [width] rows and [height] columns with [4 * numberOfChannel] bytes per
    element: its rows are indexed by the column index of the tensor, so a
    row of it is [4 * numberOfChannel * height] bytes long. *)
Theorem chwDataToMat_shape (raw : Z -> Z -> Z) (n width height : Z) (src : ptr)
    (mask : Mat) (h : Host) :
  0 < n ->
  let m := fst (chwDataToMat raw n width height src mask h) in
  rows m = width /\ cols m = height /\ elemSize m = 4 * n /\
  step m = height * (4 * n).
Proof.
  intros Hn m. unfold m. rewrite chwDataToMat_planes.
  destruct (range_pos n Hn) as [l El]. rewrite El.
  destruct (plane_of_header raw width height src mask h 0) as [Hr [Hc _]].
  unfold step, merge. cbn [rows cols elemSize map nth].
  rewrite Hr, Hc. repeat split.
Qed.

Lemma chwDataToMat_shape_witness :
  0 < 4 /\
  rows (fst (chwDataToMat (fun _ _ => 0) 4 64 32 instance0
               (Mat_zeros 64 32 1 (fun _ => 0)) zero_host)) = 64.
Proof.
  assert (Hn : 0 < 4) by lia.
  split; [exact Hn|].
  exact (proj1 (chwDataToMat_shape (fun _ _ => 0) 4 64 32 instance0
                  (Mat_zeros 64 32 1 (fun _ => 0)) zero_host Hn)).
Defined.
